(** * The premake call-stack profiler (src/host/premake_main.c)

    A shallow embedding of the profiler that premake's entry point wraps
    around the Lua run: the call/return hook that grows the call tree,
    the symbol cache, the two reduction passes, the flattener, the fold
    pass and the report writer, followed by the properties of each.

    Conventions.
    - [uint64_t] values are integers in [0, 2^64); every addition and
      subtraction of the source is followed by [wrap64].
    - C strings are [string] values; a buffer a text is formatted into
      is its size in bytes, and a write that does not fit in its block
      is a fault.
    - The tree of [StackFrame]s linked by [child]/[next] is a rose tree;
      [current_frame] and the [parent] links are a cursor into it.
    - Whatever the platform supplies ([__rdtsc], the [lua_Debug] record,
      [SymFromAddr], [fopen]) is an input. *)

From Stdlib Require Import ZArith String Ascii DecimalString.
From stdpp Require Import base tactics option numbers list sorting strings.

Local Open Scope string_scope.
Local Open Scope list_scope.

(** ** Outcomes *)

Inductive fault :=
| Aborted           (* assert(0); abort() *)
| NullDereference   (* access through a NULL pointer *)
| OutOfBounds.      (* access outside an array, a buffer or an allocated block *)

Inductive result (A : Type) :=
| Done (a : A)
| Fault (f : fault).
Arguments Done {A} a.
Arguments Fault {A} f.

Definition bind {A B} (m : result A) (k : A -> result B) : result B :=
  match m with
  | Done a => k a
  | Fault f => Fault f
  end.

Notation "'let*' p ':=' m 'in' k" := (bind m (fun p => k))
  (at level 10, p pattern, m at level 100, k at level 200).

(** ** Machine integers *)

Definition wrap64 (x : Z) : Z := (x mod 2 ^ 64)%Z.

Definition is_uint64 (x : Z) : Prop := (0 <= x < 2 ^ 64)%Z.

(** ** C strings *)

Definition byte_of (c : ascii) : Z := Z.of_N (N_of_ascii c).

(** [strcmp]: unsigned byte-wise comparison; only the sign of the result
    is specified by C, the model returns -1, 0 or 1. *)
Fixpoint strcmp (a b : string) : Z :=
  match a, b with
  | EmptyString, EmptyString => 0
  | EmptyString, String _ _ => -1
  | String _ _, EmptyString => 1
  | String c a', String d b' =>
      if (byte_of c <? byte_of d)%Z then -1
      else if (byte_of d <? byte_of c)%Z then 1
      else strcmp a' b'
  end.

Definition strlen (s : string) : nat := String.length s.

(** [strrchr s '/'] followed by [+ 1]: the text after the last slash, or
    [None] when [s] has no slash. *)
Fixpoint after_last_slash (s : string) : option string :=
  match s with
  | EmptyString => None
  | String c s' =>
      match after_last_slash s' with
      | Some t => Some t
      | None => if Ascii.eqb c "/" then Some s' else None
      end
  end.

(** [%d] and [%llu] conversions of [sprintf] / [fprintf]. *)
Definition fmt_d (z : Z) : string := NilZero.string_of_int (Z.to_int z).
Definition fmt_u64 (z : Z) : string := NilZero.string_of_uint (N.to_uint (Z.to_N z)).

Definition newline : string := String (ascii_of_nat 10) EmptyString.

(** ** Blocks of memory

    A write of [width] bytes at byte [offset] of a block of [size]
    bytes. *)
Definition store (size offset width : nat) : result unit :=
  if (offset + width <=? size)%nat then Done tt else Fault OutOfBounds.

(** [sprintf(buffer, ...)], where [buffer] has [size] bytes and the
    conversions produce [text]: the text is written with its terminating
    zero. *)
Definition sprintf (size : nat) (text : string) : result string :=
  let* _ := store size 0 (strlen text + 1) in
  Done text.

(** [sizeof] of a pointer (a 64-bit build). *)
Definition sizeof_pointer : nat := 8.

(** [LUA_IDSIZE] comes from luaconf.h, which is not among the sources of
    the host; 60 is the value the Lua distribution gives it. *)
Definition LUA_IDSIZE : nat := 60.

(** ** Pointers

    Pointer values are compared by identity only.  Addresses that belong
    to the host (entry points of C functions, names interned by Lua) are
    integers; a block returned by the allocator is identified by its
    allocation number, so that two allocations never compare equal. *)

Inductive pointer :=
| NULL
| HostPtr (a : Z)
| HeapPtr (b : nat).

Global Instance pointer_eq_dec : EqDecision pointer.
Proof. solve_decision. Defined.

(** The strings the profiler itself has allocated with [strdup], in
    allocation order: block [b] holds [heap !! b]. *)
Definition Heap := list string.

Definition strdup (s : string) (heap : Heap) : pointer * Heap :=
  (HeapPtr (length heap), heap ++ [s]).

(** ** Data model *)

Inductive CodeLocationType :=
| CLT_Lua
| CLT_LuaAnonymous
| CLT_C
| CLT_Main.

Global Instance CodeLocationType_eq_dec : EqDecision CodeLocationType.
Proof. solve_decision. Defined.

Record CodeLocation := mkCodeLocation {
  type : CodeLocationType;
  addr : pointer
}.

Global Instance CodeLocation_eq_dec : EqDecision CodeLocation.
Proof. solve_decision. Defined.

#[local] Unset Elimination Schemes.
Inductive StackFrame := mkStackFrame {
  start : Z;
  elapsed : Z;
  child : list StackFrame;     (* the chain child, child->next, ... *)
  code : CodeLocation;
  children_time : Z;
  overhead : Z
}.
#[local] Set Elimination Schemes.

(** A zero-initialised frame ([static StackFrame root_frame = {0}] and
    the result of [calloc]). *)
Definition zero_frame : StackFrame :=
  mkStackFrame 0 0 [] (mkCodeLocation CLT_Lua NULL) 0 0.

Definition set_start (v : Z) (f : StackFrame) : StackFrame :=
  mkStackFrame v (elapsed f) (child f) (code f) (children_time f) (overhead f).
Definition set_elapsed (v : Z) (f : StackFrame) : StackFrame :=
  mkStackFrame (start f) v (child f) (code f) (children_time f) (overhead f).
Definition set_child (v : list StackFrame) (f : StackFrame) : StackFrame :=
  mkStackFrame (start f) (elapsed f) v (code f) (children_time f) (overhead f).
Definition set_code (v : CodeLocation) (f : StackFrame) : StackFrame :=
  mkStackFrame (start f) (elapsed f) (child f) v (children_time f) (overhead f).
Definition set_children_time (v : Z) (f : StackFrame) : StackFrame :=
  mkStackFrame (start f) (elapsed f) (child f) (code f) v (overhead f).
Definition set_overhead (v : Z) (f : StackFrame) : StackFrame :=
  mkStackFrame (start f) (elapsed f) (child f) (code f) (children_time f) v.

(** What the host hands to the hook: the [lua_Debug] record as
    [lua_getinfo] fills it, and the entry point [lua_getcfunc] reports.
    [name] is [None] for a NULL name, otherwise the address of the name
    and its text. *)
Inductive hook_event :=
| LUA_HOOKCALL
| LUA_HOOKRET
| LUA_HOOKLINE
| LUA_HOOKCOUNT
| LUA_HOOKTAILRET.

Module lua_Debug.
Record t := mk {
  event : hook_event;
  what : string;
  name : option (Z * string);
  source : string;
  currentline : Z;
  cfunc : Z
}.
End lua_Debug.

(** One invocation of the hook: the debug record and the two values the
    time-stamp counter returns to the invocation's two [__rdtsc()] reads. *)
Record Notification := mkNotification {
  ar : lua_Debug.t;
  tsc0 : Z;
  tsc1 : Z
}.

(** The cursor.  [current_frame] holds the frame the pointer of the same
    name designates; [parents] is the chain of [parent] links above it,
    nearest first.  A link records the parent frame and the position of
    the current frame in the parent's chain of children; the parent's
    copy of that child is brought up to date when the cursor moves back
    up.  The chain is empty exactly when [current_frame] is
    [&root_frame]. *)
Record Crumb := mkCrumb {
  c_parent : StackFrame;
  c_slot : nat
}.

Record Profiler := mkProfiler {
  current_frame : StackFrame;
  parents : list Crumb;
  heap : Heap
}.

Definition profiler_init : Profiler := mkProfiler zero_frame [] [].

(** Writes the frame held by the cursor back into its parent. *)
Definition plug (f : StackFrame) (c : Crumb) : StackFrame :=
  set_child (<[c_slot c := f]> (child (c_parent c))) (c_parent c).

(** [root_frame]: the whole tree, whatever the position of the cursor. *)
Fixpoint zip (f : StackFrame) (cs : list Crumb) : StackFrame :=
  match cs with
  | [] => f
  | c :: cs' => zip (plug f c) cs'
  end.

Definition root_frame (st : Profiler) : StackFrame :=
  zip (current_frame st) (parents st).

(** ** The call-tree builder *)

Definition first_char (s : string) : ascii :=
  match s with
  | EmptyString => zero
  | String c _ => c
  end.

Definition anonymous_name (ar : lua_Debug.t) : string :=
  let source :=
    match after_last_slash (lua_Debug.source ar) with
    | Some t => t
    | None => lua_Debug.source ar
    end in
  source +:+ ":" +:+ fmt_d (lua_Debug.currentline ar).

Definition parseCodeLocation (ar : lua_Debug.t) (h : Heap)
  : result (CodeLocation * Heap) :=
  if (strcmp (lua_Debug.what ar) "C" =? 0)%Z then
    Done (mkCodeLocation CLT_C (HostPtr (lua_Debug.cfunc ar)), h)
  else if (strcmp (lua_Debug.what ar) "Lua" =? 0)%Z then
    match lua_Debug.name ar with
    | Some (a, s) =>
        if negb (Ascii.eqb (first_char s) "?") then
          Done (mkCodeLocation CLT_Lua (HostPtr a), h)
        else
          let* buffer := sprintf (LUA_IDSIZE + 11 + 1) (anonymous_name ar) in
          let '(p, h') := strdup buffer h in
          Done (mkCodeLocation CLT_LuaAnonymous p, h')
    | None =>
        let* buffer := sprintf (LUA_IDSIZE + 11 + 1) (anonymous_name ar) in
        let '(p, h') := strdup buffer h in
        Done (mkCodeLocation CLT_LuaAnonymous p, h')
    end
  else if (strcmp (lua_Debug.what ar) "main" =? 0)%Z then
    Done (mkCodeLocation CLT_Main NULL, h)
  else
    Fault Aborted.

(** The search loop of [findChildInCurrent]: position of the first frame
    of the chain whose code has the type and the address of [cl]. *)
Fixpoint search_child (cl : CodeLocation) (chain : list StackFrame) : option nat :=
  match chain with
  | [] => None
  | c :: rest =>
      if bool_decide (type cl = type (code c)) && bool_decide (addr cl = addr (code c))
      then Some 0
      else S <$> search_child cl rest
  end.

(** Returns the position of the child in the chain of the current frame
    together with the child. *)
Definition findChildInCurrent (ar : lua_Debug.t) (st : Profiler)
  : result (nat * StackFrame * Profiler) :=
  let* (cl, h) := parseCodeLocation ar (heap st) in
  let cur := current_frame st in
  match search_child cl (child cur) with
  | Some i =>
      match child cur !! i with
      | Some c => Done (i, c, mkProfiler cur (parents st) h)
      | None => Fault NullDereference
      end
  | None =>
      let c := set_code cl zero_frame in
      Done (0, c, mkProfiler (set_child (c :: child cur) cur) (parents st) h)
  end.

Definition hook_enter (n : Notification) (st : Profiler) : result Profiler :=
  let overhead := tsc0 n in
  let* (i, frame, st1) := findChildInCurrent (ar n) st in
  let frame := set_start overhead frame in
  let frame := set_overhead (wrap64 (tsc1 n - overhead)) frame in
  Done (mkProfiler frame (mkCrumb (current_frame st1) i :: parents st1) (heap st1)).

Definition hook_leave (n : Notification) (st : Profiler) : result Profiler :=
  let stop := tsc0 n in
  let cur := current_frame st in
  let cur := set_elapsed (wrap64 (elapsed cur + wrap64 (stop - start cur))) cur in
  match parents st with
  | [] => Fault NullDereference
  | c :: up =>
      let parent := plug cur c in
      let parent :=
        set_overhead (wrap64 (overhead parent + wrap64 (tsc1 n - stop))) parent in
      Done (mkProfiler parent up (heap st))
  end.

Definition callhook (n : Notification) (st : Profiler) : result Profiler :=
  match lua_Debug.event (ar n) with
  | LUA_HOOKCALL => hook_enter n st
  | LUA_HOOKTAILRET => hook_leave n st
  | LUA_HOOKRET => hook_leave n st
  | _ => Done st
  end.

(** The hook applied to a stream of notifications. *)
Fixpoint run (ns : list Notification) (st : Profiler) : result Profiler :=
  match ns with
  | [] => Done st
  | n :: ns' => let* st' := callhook n st in run ns' st'
  end.

(** ** Loops over a chain of children

    [for (it = frame->child; it != NULL; it = it->next) body], in the
    two forms the source uses: a body that updates the visited frame and
    a local variable, and a body that updates state outside the tree and
    may fail. *)

Fixpoint chain_update {S : Type} (body : StackFrame -> S -> StackFrame * S)
    (its : list StackFrame) (s : S) : list StackFrame * S :=
  match its with
  | [] => ([], s)
  | it :: rest =>
      let '(it', s) := body it s in
      let '(rest', s) := chain_update body rest s in
      (it' :: rest', s)
  end.

Fixpoint chain_iter {S : Type} (body : StackFrame -> S -> result S)
    (its : list StackFrame) (s : S) : result S :=
  match its with
  | [] => Done s
  | it :: rest => let* s := body it s in chain_iter body rest s
  end.

(** ** The tree reducer *)

Fixpoint count_nodes (frame : StackFrame) : nat :=
  foldl (fun count it => count + count_nodes it) 1 (child frame).

Fixpoint reduce_overhead (frame : StackFrame) : StackFrame :=
  let frame' := set_elapsed (wrap64 (elapsed frame - overhead frame)) frame in
  set_child (map reduce_overhead (child frame)) frame'.

Fixpoint calculate_child_time (frame : StackFrame) : StackFrame :=
  let '(chain, child_time) :=
    chain_update
      (fun it (child_time : Z) =>
         let it' := calculate_child_time it in
         (it', wrap64 (elapsed it' + children_time it')))
      (child frame) 0%Z in
  let frame := set_child chain frame in
  let frame := set_children_time child_time frame in
  set_elapsed (wrap64 (elapsed frame - child_time)) frame.

(** ** The platform *)

Record Platform := mkPlatform {
  (* [SymFromAddr]: the name found for an address, or [None] when the
     call fails; the first argument counts the calls made before. *)
  SymFromAddr : nat -> pointer -> option string;
  (* the [%p] conversion of [sprintf] *)
  fmt_p : pointer -> string;
  (* the text stored at an address owned by the host *)
  host_string : Z -> string;
  (* the success code of premake.h *)
  OKAY : Z
}.

(** Reads the C string a pointer designates. *)
Definition c_string (P : Platform) (h : Heap) (p : pointer) : string :=
  match p with
  | NULL => ""
  | HostPtr a => host_string P a
  | HeapPtr b => default "" (h !! b)
  end.

(** ** The symbol resolver *)

Module ResolvedFrame.
Record t := mk {
  addr : pointer;
  name : string
}.
(* struct ResolvedFrame_ { next; addr; name }: three pointers *)
Definition offsetof_next : nat := 0.
Definition offsetof_addr : nat := sizeof_pointer.
Definition offsetof_name : nat := 2 * sizeof_pointer.
End ResolvedFrame.

(** [g_resolved], most recent entry first, and the number of calls made
    to [SymFromAddr] so far. *)
Record Resolver := mkResolver {
  g_resolved : list ResolvedFrame.t;
  sym_calls : nat
}.

Definition resolver_init : Resolver := mkResolver [] 0.

Fixpoint cache_find (a : pointer) (chain : list ResolvedFrame.t) : option string :=
  match chain with
  | [] => None
  | it :: rest =>
      if bool_decide (ResolvedFrame.addr it = a) then Some (ResolvedFrame.name it)
      else cache_find a rest
  end.

(** The block of a new entry is [calloc(1, sizeof(resolvedFrame))], and
    [resolvedFrame] is a pointer: the block has the size of a pointer,
    and the fields of the entry are written at their offsets in it.  The
    buffer [symbol] is large enough for the text of either branch. *)
Definition resovle (P : Platform) (a : pointer) (r : Resolver)
  : result (string * Resolver) :=
  match cache_find a (g_resolved r) with
  | Some n => Done (n, r)
  | None =>
      let block := sizeof_pointer in
      let* _ := store block ResolvedFrame.offsetof_addr sizeof_pointer in
      let n :=
        match SymFromAddr P (sym_calls r) a with
        | Some s => s
        | None => "0x" +:+ fmt_p P a
        end in
      let* _ := store block ResolvedFrame.offsetof_name sizeof_pointer in
      let* _ := store block ResolvedFrame.offsetof_next sizeof_pointer in
      Done (n, mkResolver (ResolvedFrame.mk a n :: g_resolved r) (S (sym_calls r)))
  end.

(** ** The flattener *)

Module FlatStack.
Record t := mk {
  name : string;
  elapsed : Z
}.
End FlatStack.

(** A slot of a [calloc]ed array; its NULL name is the empty string. *)
Definition zero_stack : FlatStack.t := FlatStack.mk "" 0.

Definition frame_prefix (ty : CodeLocationType) : string :=
  match ty with
  | CLT_Lua => "LUA:"
  | CLT_LuaAnonymous => "LUA:"
  | CLT_C => "C:"
  | CLT_Main => "LUA:"
  end.

Definition frame_name (P : Platform) (h : Heap) (cl : CodeLocation) (r : Resolver)
  : result (string * Resolver) :=
  match type cl with
  | CLT_Lua => Done (c_string P h (addr cl), r)
  | CLT_LuaAnonymous => Done (c_string P h (addr cl), r)
  | CLT_C => resovle P (addr cl) r
  | CLT_Main => Done ("Lua:main", r)
  end.

Fixpoint append_children (P : Platform) (h : Heap) (frame : StackFrame)
    (prefix : string) (s : list FlatStack.t * nat * Resolver)
  : result (list FlatStack.t * nat * Resolver) :=
  let '(array, index, r) := s in
  let* (fname, r) := frame_name P h (code frame) r in
  let namelen := strlen prefix + strlen fname + 2 in
  let* myname :=
    sprintf namelen
            (prefix +:+ ";" +:+ frame_prefix (type (code frame)) +:+ fname) in
  if (index <? length array)%nat then
    let array := <[index := FlatStack.mk myname (elapsed frame)]> array in
    let index := S index in
    chain_iter (fun it s => append_children P h it myname s)
               (child frame) (array, index, r)
  else Fault OutOfBounds.

Definition count_stacks (root : StackFrame) : nat :=
  foldl (fun count it => count + count_nodes it) 0 (child root).

Definition flatten_stacks (P : Platform) (h : Heap) (root : StackFrame) (r : Resolver)
  : result (list FlatStack.t * nat * Resolver) :=
  let count := count_stacks root in
  let stacks := replicate count zero_stack in
  let* (stacks, _, r) :=
    chain_iter (fun it s => append_children P h it "root" s)
               (child root) (stacks, 0, r) in
  Done (stacks, count, r).

(** ** The folder *)

Definition qsort_compare_stacks (a b : FlatStack.t) : Z :=
  strcmp (FlatStack.name a) (FlatStack.name b).

Definition stack_le (a b : FlatStack.t) : Prop := (qsort_compare_stacks a b <= 0)%Z.

Global Instance stack_le_dec : RelDecision stack_le.
Proof. intros a b. unfold stack_le. apply _. Defined.

(** The library's [qsort] with [qsort_compare_stacks]: some sorted
    rearrangement of the array, here the one a merge sort produces. *)
Definition qsort (stacks : list FlatStack.t) : list FlatStack.t :=
  merge_sort stack_le stacks.

(** The loop of [fold_stacks].  An iteration reads [stacks[read_index]],
    so the loop leaves the array after at most [length stacks]
    iterations, which is what [fuel] is set to. *)
Fixpoint fold_loop (fuel : nat) (stacks : list FlatStack.t)
    (nstacks read_index write_index : nat) : result (list FlatStack.t * nat) :=
  if (read_index =? nstacks)%nat then Done (stacks, write_index)
  else
    match fuel with
    | 0 => Fault OutOfBounds
    | S fuel' =>
        match stacks !! read_index, stacks !! write_index with
        | Some rd, Some wr =>
            if (strcmp (FlatStack.name rd) (FlatStack.name wr) =? 0)%Z then
              let wr' := FlatStack.mk (FlatStack.name wr)
                           (wrap64 (FlatStack.elapsed wr + FlatStack.elapsed rd)) in
              fold_loop fuel' (<[write_index := wr']> stacks)
                        nstacks (S read_index) write_index
            else
              let write_index := S write_index in
              if (write_index <? length stacks)%nat then
                fold_loop fuel' (<[write_index := rd]> stacks)
                          nstacks (S read_index) write_index
              else Fault OutOfBounds
        | _, _ => Fault OutOfBounds
        end
    end.

Definition fold_stacks (stacks : list FlatStack.t) (nstacks : nat)
  : result (list FlatStack.t * nat) :=
  fold_loop (length stacks) stacks nstacks 1 0.

(** ** The report writer *)

Definition report_line (s : FlatStack.t) : string :=
  FlatStack.name s +:+ " " +:+ fmt_u64 (FlatStack.elapsed s) +:+ newline.

(** The lines [stacks[ii]] for [ii] from [ii] up to [nstacks]. *)
Fixpoint print_loop (stacks : list FlatStack.t) (ii todo : nat) : result string :=
  match todo with
  | 0 => Done ""
  | S todo' =>
      match stacks !! ii with
      | Some s =>
          let* text := print_loop stacks (S ii) todo' in
          Done (report_line s +:+ text)
      | None => Fault OutOfBounds
      end
  end.

(** [can_open] tells whether [fopen] succeeds.  The result is the text
    the destination holds afterwards, [None] when it is not touched. *)
Definition print_stacks (can_open : bool) (stacks : list FlatStack.t) (nstacks : nat)
  : result (option string) :=
  if can_open then
    let* text := print_loop stacks 0 nstacks in
    Done (Some text)
  else Done None.

(** ** The entry point *)

(** What the surroundings of [main] do in one execution of the program. *)
Record Execution := mkExecution {
  sym_initialize : bool;                (* result of SymInitialize *)
  premake_init : Z;                     (* result of premake_init *)
  notifications : list Notification;    (* hook calls made by premake_execute *)
  premake_execute : Z;                  (* result of premake_execute *)
  can_open : bool                       (* whether F:/stacks.fg can be opened *)
}.

Record Outcome := mkOutcome {
  exit_code : Z;
  stdout : string;
  report : option string
}.

Definition main (P : Platform) (e : Execution) : result Outcome :=
  let out := if sym_initialize e then "" else "FAILED TO LOAD SYMBOLS" +:+ newline in
  let z := premake_init e in
  let* (z, st) :=
    if (z =? OKAY P)%Z then
      let* st := run (notifications e) profiler_init in
      Done (premake_execute e, st)
    else Done (z, profiler_init) in
  let root := reduce_overhead (root_frame st) in
  let root := calculate_child_time root in
  let* (stacks, nstacks, _) := flatten_stacks P (heap st) root resolver_init in
  let stacks := qsort stacks in
  let* (stacks, nstacks) := fold_stacks stacks nstacks in
  let* file := print_stacks (can_open e) stacks nstacks in
  Done (mkOutcome z out file).

(** * Definitions used by the statements *)

(** ** Induction over the call tree *)

Section StackFrame_induction.
Variable Q : StackFrame -> Prop.
Hypothesis step : forall s e ch c ct o,
  Forall Q ch -> Q (mkStackFrame s e ch c ct o).

Fixpoint StackFrame_ind (f : StackFrame) : Q f :=
  match f with
  | mkStackFrame s e ch c ct o =>
      step s e ch c ct o
        ((fix all (l : list StackFrame) : Forall Q l :=
            match l with
            | [] => List.Forall_nil Q
            | x :: l' => List.Forall_cons Q x l' (StackFrame_ind x) (all l')
            end) ch)
  end.
End StackFrame_induction.


(** ** Sample notifications *)

Definition enter_main (t0 t1 : Z) : Notification :=
  mkNotification
    (lua_Debug.mk LUA_HOOKCALL "main" None "@src/_premake_main.lua" 0 0) t0 t1.

Definition enter_lua (a : Z) (nm : string) (t0 t1 : Z) : Notification :=
  mkNotification
    (lua_Debug.mk LUA_HOOKCALL "Lua" (Some (a, nm)) "@src/base/os.lua" 0 0) t0 t1.

Definition enter_anonymous (src : string) (line : Z) (t0 t1 : Z) : Notification :=
  mkNotification (lua_Debug.mk LUA_HOOKCALL "Lua" None src line 0) t0 t1.

Definition enter_c (f : Z) (t0 t1 : Z) : Notification :=
  mkNotification (lua_Debug.mk LUA_HOOKCALL "C" None "=[C]" (-1) f) t0 t1.

Definition leave (t0 t1 : Z) : Notification :=
  mkNotification (lua_Debug.mk LUA_HOOKRET "" None "" 0 0) t0 t1.

(** The main chunk calls [A], then [B]; no time is spent in the hook. *)
Definition two_calls : list Notification :=
  [ enter_main 0 0;
    enter_lua 4096 "A" 10 10; leave 110 110;
    enter_lua 8192 "B" 200 200; leave 250 250;
    leave 300 300 ].

(** The main chunk calls [f] twice; the hook costs 3, then 2 cycles on
    entry. *)
Definition same_call_twice : list Notification :=
  [ enter_main 0 1;
    enter_lua 4096 "f" 10 13; leave 20 21;
    enter_lua 4096 "f" 30 32 ].

(** An anonymous function of os.lua, line 12, is called twice from the
    main chunk. *)
Definition anonymous_twice : list Notification :=
  [ enter_main 0 1;
    enter_anonymous "@src/base/os.lua" 12 10 11; leave 20 21;
    enter_anonymous "@src/base/os.lua" 12 30 31; leave 40 41;
    leave 50 51 ].

(** ** Time attributed to children *)

(** The sum, over the children of a frame, of [elapsed + children_time]. *)
Definition children_sum (f : StackFrame) : Z :=
  foldr (fun c acc => (elapsed c + children_time c + acc)%Z) 0%Z (child f).

(** ** Folding *)

(** The records of a sorted array with equal neighbours merged: [cur] is
    the record being accumulated, [rest] what remains to be read. *)
Fixpoint fold_acc (cur : FlatStack.t) (rest : list FlatStack.t) : list FlatStack.t :=
  match rest with
  | [] => [cur]
  | rd :: rest' =>
      if (strcmp (FlatStack.name rd) (FlatStack.name cur) =? 0)%Z then
        fold_acc (FlatStack.mk (FlatStack.name cur)
                    (wrap64 (FlatStack.elapsed cur + FlatStack.elapsed rd))) rest'
      else cur :: fold_acc rd rest'
  end.

(** One record for each run of equal paths, with the elapsed values of
    the run added up. *)
Definition folded (stacks : list FlatStack.t) : list FlatStack.t :=
  match stacks with
  | [] => []
  | x :: rest => fold_acc x rest
  end.

(** The records [print_stacks] writes: the first [nstacks] of the array. *)
Definition printed (stacks : list FlatStack.t) (nstacks : nat) : list FlatStack.t :=
  take nstacks stacks.

(** Adjacent records are in [strcmp] order. *)
Definition adjacent_sorted (stacks : list FlatStack.t) : Prop :=
  forall i a b, stacks !! i = Some a -> stacks !! S i = Some b ->
    (strcmp (FlatStack.name a) (FlatStack.name b) <= 0)%Z.

Definition sample_stacks : list FlatStack.t :=
  [ FlatStack.mk "root;LUA:Lua:main" 200;
    FlatStack.mk "root;LUA:Lua:main;LUA:A" 100;
    FlatStack.mk "root;LUA:Lua:main;LUA:A" 5;
    FlatStack.mk "root;LUA:Lua:main;LUA:B" 50 ].

(** The records of the tree of [anonymous_twice], sorted: the main chunk
    and the two frames of the anonymous function. *)
Definition anonymous_stacks : list FlatStack.t :=
  [ FlatStack.mk "root;LUA:Lua:main" 38;
    FlatStack.mk "root;LUA:Lua:main;LUA:os.lua:12" 9;
    FlatStack.mk "root;LUA:Lua:main;LUA:os.lua:12" 9 ].

Definition distinct_stacks : list FlatStack.t :=
  [ FlatStack.mk "root;C:0x0000000000401000" 7;
    FlatStack.mk "root;LUA:Lua:main" 300 ].

(** ** Flattening *)

Definition count_chain (its : list StackFrame) : nat :=
  foldl (fun count it => count + count_nodes it) 0 its.

(** ** Timing *)

(** The frames of a tree, the root of the tree first. *)
Fixpoint subframes (f : StackFrame) : list StackFrame :=
  f :: flat_map subframes (child f).

(** The time-stamp counter does not run backwards and does not wrap
    while the notifications are delivered; [T] is the last value read
    before them. *)
Fixpoint time_ordered (T : Z) (ns : list Notification) : Prop :=
  match ns with
  | [] => True
  | n :: ns' =>
      (T <= tsc0 n /\ tsc0 n <= tsc1 n /\ tsc1 n < 2 ^ 64)%Z /\
      time_ordered (tsc1 n) ns'
  end.





(** The main chunk is entered and left. *)
Definition one_call : list Notification :=
  [ enter_main 10 12; leave 20 23 ].

(** ** Nodes and call sites *)

(** The frames of a tree, each given by the codes met on the way from
    the root of the tree down to it. *)
Fixpoint tree_paths (f : StackFrame) : list (list CodeLocation) :=
  [code f] :: (cons (code f) <$> (child f ≫= tree_paths)).

(** The codes of the frames that are executing, innermost first; the last
    one is the code of the root sentinel. *)
Definition stack_of (f : StackFrame) (cs : list Crumb) : list CodeLocation :=
  code f :: (code ∘ c_parent <$> cs).

(** What the notifications show of the calls: for each call event, the
    stack of locations it arrives on (innermost first) and the location
    the classifier gives to the called site. *)
Fixpoint observed (ns : list Notification) (stack : list CodeLocation) (h : Heap)
  : list (list CodeLocation * CodeLocation) :=
  match ns with
  | [] => []
  | n :: ns' =>
      match lua_Debug.event (ar n) with
      | LUA_HOOKCALL =>
          match parseCodeLocation (ar n) h with
          | Done (cl, h') => (stack, cl) :: observed ns' (cl :: stack) h'
          | Fault _ => []
          end
      | LUA_HOOKRET | LUA_HOOKTAILRET =>
          match stack with
          | _ :: (_ :: _) as stack' => observed ns' stack' h
          | _ => []
          end
      | _ => observed ns' stack h
      end
  end.

(** The path, from the root, of the frame a call site designates. *)
Definition site_path (site : list CodeLocation * CodeLocation) : list CodeLocation :=
  reverse (site.2 :: site.1).

(** The codes on the way from the root to the parent of the frame the
    cursor is on. *)
Definition ctx_prefix (cs : list Crumb) : list CodeLocation :=
  reverse (code ∘ c_parent <$> cs).

(** The frames of the tree that are not in the subtree of the frame the
    cursor is on. *)
Fixpoint ctx_paths (cs : list Crumb) : list (list CodeLocation) :=
  match cs with
  | [] => []
  | c :: cs' =>
      ctx_paths cs' ++
      (app (ctx_prefix cs') <$>
         ([code (c_parent c)]
          :: (cons (code (c_parent c)) <$>
                (delete (c_slot c) (child (c_parent c)) ≫= tree_paths))))
  end.

(** Every link designates a child its parent has. *)
Definition slots_valid (cs : list Crumb) : Prop :=
  Forall (fun c => c_slot c < length (child (c_parent c))) cs.

(** ** Call sites as the specification identifies them *)

(** The identity of a call site: variant and payload, the payload of an
    anonymous location being its formatted text. *)
Inductive Location :=
| NativeFunction (address : Z)
| NamedScriptFunction (name_address : Z)
| AnonymousScriptLocation (file_line : string)
| ProgramEntry.

Global Instance Location_eq_dec : EqDecision Location.
Proof. solve_decision. Defined.

(** The classification of a call-site descriptor into a [Location]; it
    follows [parseCodeLocation] except that an anonymous location is its
    text. *)
Definition classify (a : lua_Debug.t) : option Location :=
  if (strcmp (lua_Debug.what a) "C" =? 0)%Z then
    Some (NativeFunction (lua_Debug.cfunc a))
  else if (strcmp (lua_Debug.what a) "Lua" =? 0)%Z then
    match lua_Debug.name a with
    | Some (p, s) =>
        if negb (Ascii.eqb (first_char s) "?") then Some (NamedScriptFunction p)
        else Some (AnonymousScriptLocation (anonymous_name a))
    | None => Some (AnonymousScriptLocation (anonymous_name a))
    end
  else if (strcmp (lua_Debug.what a) "main" =? 0)%Z then Some ProgramEntry
  else None.

(** The pairs (parent path, location) a stream of notifications shows,
    with locations identified as above; [stack] holds the locations of
    the calls in progress, innermost first. *)
Fixpoint observed_sites (ns : list Notification) (stack : list Location)
  : list (list Location * Location) :=
  match ns with
  | [] => []
  | n :: ns' =>
      match lua_Debug.event (ar n) with
      | LUA_HOOKCALL =>
          match classify (ar n) with
          | Some l => (stack, l) :: observed_sites ns' (l :: stack)
          | None => []
          end
      | LUA_HOOKRET | LUA_HOOKTAILRET =>
          match stack with
          | _ :: stack' => observed_sites ns' stack'
          | [] => []
          end
      | _ => observed_sites ns' stack
      end
  end.

(** The frames of the tree are the root and one frame for each call
    site of [sites], no two frames having the same path. *)
Definition sites_ok (st : Profiler)
    (sites : list (list CodeLocation * CodeLocation)) : Prop :=
  slots_valid (parents st) /\
  NoDup (tree_paths (root_frame st)) /\
  Forall (fun s => s.1 <> []) sites /\
  forall q, q ∈ tree_paths (root_frame st) <->
            q = [code zero_frame] \/ q ∈ site_path <$> sites.

(** A location does not point into a block the allocator has yet to
    hand out. *)
Definition heap_bounded (h : Heap) (cl : CodeLocation) : Prop :=
  forall b, addr cl = HeapPtr b -> b < length h.

Definition tree_bounded (st : Profiler) : Prop :=
  Forall (Forall (heap_bounded (heap st))) (tree_paths (root_frame st)).

(** ** Further definitions *)

(** Whether the byte [c] occurs in a string. *)
Fixpoint contains (c : ascii) (s : string) : bool :=
  match s with
  | EmptyString => false
  | String d s' => Ascii.eqb d c || contains c s'
  end.

Definition is_call (n : Notification) : bool :=
  match lua_Debug.event (ar n) with
  | LUA_HOOKCALL => true
  | _ => false
  end.

Definition is_return (n : Notification) : bool :=
  match lua_Debug.event (ar n) with
  | LUA_HOOKRET | LUA_HOOKTAILRET => true
  | _ => false
  end.

(** The numbers of call events and of return events of a stream. *)
Definition calls (ns : list Notification) : nat := length (filter is_call ns).
Definition returns (ns : list Notification) : nat := length (filter is_return ns).

(** The elapsed times of an array of records, added up. *)
Definition total_elapsed (stacks : list FlatStack.t) : Z :=
  foldr (fun s acc => (FlatStack.elapsed s + acc)%Z) 0%Z stacks.

(** The lines of a report, one after the other. *)
Definition report_text (stacks : list FlatStack.t) : string :=
  foldr (fun s acc => report_line s +:+ acc) "" stacks.

Definition stack_lt (a b : FlatStack.t) : Prop := (qsort_compare_stacks a b < 0)%Z.

(** ** Time of the children *)

Definition sum_elapsed (its : list StackFrame) : Z :=
  foldr (fun c acc => (elapsed c + acc)%Z) 0%Z its.

(** A frame that is not executing: the elapsed times of its children and
    its own overhead fit in its elapsed time, which fits in the time that
    has passed. *)
Definition funded (T : Z) (f : StackFrame) : Prop :=
  (0 <= overhead f /\ sum_elapsed (child f) + overhead f <= elapsed f /\
   0 <= elapsed f /\ elapsed f <= T)%Z.

Definition all_funded (T : Z) (f : StackFrame) : Prop :=
  Forall (funded T) (subframes f).

(** The frame the cursor is on, while it executes. *)
Definition spending (T : Z) (f : StackFrame) : Prop :=
  (0 <= start f /\ start f <= T /\ 0 <= overhead f /\
   0 <= elapsed f /\ elapsed f <= start f /\
   sum_elapsed (child f) + overhead f <= elapsed f + (T - start f))%Z.

(** A frame above the cursor, while the frame [below] executes in it. *)
Definition lending (p below : StackFrame) : Prop :=
  (0 <= start p /\ start p <= start below /\ 0 <= overhead p /\
   0 <= elapsed p /\ elapsed p <= start p /\
   sum_elapsed (child p) + overhead p + start p <= elapsed p + start below)%Z.

(** The links above the frame [below]: each parent holds a copy of the
    frame below it with the same elapsed time, its other children are
    not executing, and it lends time to the frame below unless it is the
    root. *)
Fixpoint chain_ok (T : Z) (below : StackFrame) (cs : list Crumb) : Prop :=
  match cs with
  | [] => True
  | c :: cs' =>
      Forall (all_funded T) (child (c_parent c)) /\
      (exists copy, child (c_parent c) !! c_slot c = Some copy /\
                    elapsed copy = elapsed below) /\
      match cs' with
      | [] => True
      | _ :: _ => lending (c_parent c) below /\ (start below <= T)%Z
      end /\
      chain_ok T (c_parent c) cs'
  end.

Definition budget_ok (T : Z) (st : Profiler) : Prop :=
  Forall (all_funded T) (child (current_frame st)) /\
  match parents st with
  | [] => True
  | _ :: _ => spending T (current_frame st)
  end /\
  chain_ok T (current_frame st) (parents st).

(** The elapsed time a frame is reported with: its own, less its
    overhead, less what the last child of its chain is left with. *)
Definition reported (f : StackFrame) : Z :=
  (elapsed f - overhead f
   - match last (child f) with
     | Some l => elapsed l - overhead l
     | None => 0
     end)%Z.
(** * Properties *)

(** ** Machine arithmetic and strings *)

Lemma wrap64_small (x : Z) : is_uint64 x -> wrap64 x = x.
Proof. intros [H0 H1]. unfold wrap64. apply Z.mod_small. lia. Qed.

Lemma wrap64_range (x : Z) : is_uint64 (wrap64 x).
Proof. unfold is_uint64, wrap64. apply Z.mod_pos_bound. lia. Qed.

Lemma strcmp_refl (a : string) : strcmp a a = 0%Z.
Proof.
  induction a as [|c a IH]; simpl; [done|].
  rewrite Z.ltb_irrefl. exact IH.
Qed.

Lemma byte_of_inj (c d : ascii) : byte_of c = byte_of d -> c = d.
Proof.
  unfold byte_of. intros H. apply N2Z.inj in H.
  rewrite <- (ascii_N_embedding c), <- (ascii_N_embedding d). by rewrite H.
Qed.

Lemma strcmp_eq (a b : string) : strcmp a b = 0%Z -> a = b.
Proof.
  revert b. induction a as [|c a IH]; intros [|d b]; simpl; try done.
  destruct (byte_of c <? byte_of d)%Z eqn:H1; [done|].
  destruct (byte_of d <? byte_of c)%Z eqn:H2; [done|].
  intros H. apply Z.ltb_ge in H1, H2.
  f_equal; [apply byte_of_inj; lia | by apply IH].
Qed.

Lemma strcmp_eqb (a b : string) : (strcmp a b =? 0)%Z = bool_decide (a = b).
Proof.
  case_bool_decide as H.
  - subst. rewrite strcmp_refl. done.
  - apply Z.eqb_neq. intros E. by apply strcmp_eq in E.
Qed.

Local Ltac len :=
  repeat (rewrite ?length_app, ?length_drop, ?length_insert, ?length_take; simpl); lia.

(** ** The symbol resolver *)

Lemma store_outside (size offset width : nat) :
  size < offset + width -> store size offset width = Fault OutOfBounds.
Proof.
  intros H. unfold store.
  by replace (offset + width <=? size)%nat with false
    by (symmetry; apply Nat.leb_gt; lia).
Qed.

(** A resolution that misses the cache writes the address at the second
    pointer of a block that has room for one. *)
Lemma resovle_miss (P : Platform) (a : pointer) (r : Resolver) :
  cache_find a (g_resolved r) = None -> resovle P a r = Fault OutOfBounds.
Proof.
  intros Hc. unfold resovle. rewrite Hc.
  rewrite store_outside; [done|].
  unfold ResolvedFrame.offsetof_addr, sizeof_pointer. lia.
Qed.

(** C7.  The first resolution of an address, whatever the address and
    the platform, does not return: the entry it allocates has the size
    of a pointer, [addr] lies at the second pointer of the entry and
    [name] at the third, so the resolver writes outside the block before
    [SymFromAddr] is called, and nothing is cached that a second
    resolution could be served from. *)
Theorem resovle_overruns_entry (P : Platform) (a : pointer) :
  store sizeof_pointer ResolvedFrame.offsetof_addr sizeof_pointer
  = Fault OutOfBounds /\
  store sizeof_pointer ResolvedFrame.offsetof_name sizeof_pointer
  = Fault OutOfBounds /\
  store sizeof_pointer ResolvedFrame.offsetof_next sizeof_pointer = Done tt /\
  resovle P a resolver_init = Fault OutOfBounds.
Proof.
  split_and!; [by vm_compute | by vm_compute | by vm_compute |].
  by apply resovle_miss.
Qed.

(** ** Counting frames *)

Lemma foldl_count (its : list StackFrame) (k : nat) :
  foldl (fun count it => count + count_nodes it) k its = k + count_chain its.
Proof.
  unfold count_chain. revert k. induction its as [|it rest IH]; intros k; simpl.
  - lia.
  - rewrite (IH (k + count_nodes it)), (IH (count_nodes it)). lia.
Qed.

Lemma count_nodes_unfold (f : StackFrame) :
  count_nodes f = 1 + count_chain (child f).
Proof. destruct f; simpl. apply foldl_count. Qed.

Lemma count_chain_cons (it : StackFrame) (rest : list StackFrame) :
  count_chain (it :: rest) = count_nodes it + count_chain rest.
Proof. unfold count_chain at 1. simpl. apply foldl_count. Qed.

(** ** The call-tree builder: finding the child *)

Lemma search_child_Some (cl : CodeLocation) (chain : list StackFrame) (i : nat) :
  search_child cl chain = Some i ->
  exists c, chain !! i = Some c /\ code c = cl.
Proof.
  revert i. induction chain as [|c rest IH]; intros i; simpl; [done|].
  destruct (bool_decide (type cl = type (code c))
            && bool_decide (addr cl = addr (code c))) eqn:E.
  - intros [= <-]. exists c. split; [done|].
    apply andb_prop in E as [E1%bool_decide_eq_true E2%bool_decide_eq_true].
    destruct cl, (code c); simpl in *; congruence.
  - destruct (search_child cl rest) as [j|]; [|done].
    intros [= <-]. by apply IH.
Qed.

Lemma search_child_None (cl : CodeLocation) (chain : list StackFrame) :
  search_child cl chain = None -> cl ∉ map code chain.
Proof.
  induction chain as [|c rest IH]; simpl; [intros _; apply not_elem_of_nil|].
  destruct (bool_decide (type cl = type (code c))
            && bool_decide (addr cl = addr (code c))) eqn:E; [done|].
  destruct (search_child cl rest); [done|]. intros _.
  apply not_elem_of_cons. split; [|by apply IH].
  intros ->. by rewrite !bool_decide_eq_true_2 in E.
Qed.

Lemma findChildInCurrent_cases (a : lua_Debug.t) (st st1 : Profiler)
    (i : nat) (c : StackFrame) :
  findChildInCurrent a st = Done (i, c, st1) ->
  exists cl,
    parseCodeLocation a (heap st) = Done (cl, heap st1) /\
    parents st1 = parents st /\
    code c = cl /\
    child (current_frame st1) !! i = Some c /\
    ((current_frame st1 = current_frame st /\
      cl ∈ map code (child (current_frame st))) \/
     (current_frame st1
      = set_child (c :: child (current_frame st)) (current_frame st) /\
      i = 0 /\ c = set_code cl zero_frame /\
      cl ∉ map code (child (current_frame st)))).
Proof.
  unfold findChildInCurrent.
  destruct (parseCodeLocation a (heap st)) as [[cl h']|]; [|done]. cbn [bind].
  destruct (search_child cl (child (current_frame st))) as [j|] eqn:Hs.
  - destruct (search_child_Some _ _ _ Hs) as (c' & Hc & Hcode).
    rewrite Hc. intros [= <- <- <-]. exists cl. simpl.
    split_and!; try done. left. split; [done|].
    rewrite <- Hcode. apply list_elem_of_fmap_2. by eapply list_elem_of_lookup_2.
  - intros [= <- <- <-]. exists cl. simpl. split_and!; try done.
    right. split_and!; try done. by apply search_child_None.
Qed.

(** ** The call-tree builder: overhead of an entered frame *)

(** Whatever the entered frame held before, [hook_enter] leaves in its
    [overhead] the cost of this entry alone; the overhead of the parent
    is not touched. *)
Lemma hook_enter_overhead (n : Notification) (st st' : Profiler) :
  hook_enter n st = Done st' ->
  overhead (current_frame st') = wrap64 (tsc1 n - tsc0 n) /\
  start (current_frame st') = tsc0 n /\
  exists c, parents st' = c :: parents st /\
            overhead (c_parent c) = overhead (current_frame st).
Proof.
  unfold hook_enter.
  destruct (findChildInCurrent (ar n) st) as [[[i fr] st1]|] eqn:Hf; [|done].
  simpl. intros [= <-]. split; [done|]. split; [done|].
  destruct (findChildInCurrent_cases _ _ _ _ _ Hf) as (cl & _ & Hpar & _ & _ & Hcase).
  eexists. cbn [parents]. rewrite Hpar. split; [done|]. cbn [c_parent].
  by destruct Hcase as [[-> _]|(-> & _)].
Qed.

(** C3.  The main chunk calls [f] twice; entering costs 3 cycles the first
    time and 2 the second.  Both calls use the same frame, whose
    [overhead] is 3 after the first entry and 2, not 5, after the
    second. *)
Theorem hook_enter_overwrites_overhead :
  exists st1 st2,
    run (take 2 same_call_twice) profiler_init = Done st1 /\
    run same_call_twice profiler_init = Done st2 /\
    code (current_frame st1) = code (current_frame st2) /\
    count_nodes (root_frame st2) = count_nodes (root_frame st1) /\
    overhead (current_frame st1) = 3%Z /\
    overhead (current_frame st2) = 2%Z.
Proof.
  eexists _, _. split; [vm_compute; reflexivity|].
  split; [vm_compute; reflexivity|]. vm_compute. done.
Qed.

(** ** Nodes of the call tree *)

Lemma tree_paths_unfold (f : StackFrame) :
  tree_paths f = [code f] :: (cons (code f) <$> (child f ≫= tree_paths)).
Proof. by destruct f. Qed.

Lemma tree_paths_length (f : StackFrame) : length (tree_paths f) = count_nodes f.
Proof.
  induction f as [s e ch c ct o IH] using StackFrame_ind.
  rewrite tree_paths_unfold, count_nodes_unfold. cbn [child length]. f_equal.
  rewrite length_fmap. induction IH as [|x ch Hx _ IHch]; [done|].
  rewrite count_chain_cons. cbn [mbind list_bind]. rewrite length_app.
  by rewrite Hx, <- IHch.
Qed.

Lemma tree_paths_head (f : StackFrame) (q : list CodeLocation) :
  q ∈ tree_paths f -> exists q', q = code f :: q'.
Proof.
  rewrite tree_paths_unfold. intros [->|H]%elem_of_cons; [by eexists|].
  apply list_elem_of_fmap in H as (q' & -> & _). by eexists.
Qed.

Lemma tree_paths_self (f : StackFrame) : [code f] ∈ tree_paths f.
Proof. rewrite tree_paths_unfold. apply elem_of_cons. by left. Qed.

Lemma tree_paths_child (chain : list StackFrame) (cl : CodeLocation) :
  [cl] ∈ chain ≫= tree_paths <-> cl ∈ code <$> chain.
Proof.
  rewrite list_elem_of_bind, list_elem_of_fmap. split.
  - intros (k & Hq & Hk). exists k. split; [|done].
    apply tree_paths_head in Hq as (q' & [= -> _]). done.
  - intros (k & -> & Hk). exists k. split; [apply tree_paths_self | done].
Qed.

Lemma tree_paths_fields (f f' : StackFrame) :
  code f' = code f -> child f' = child f -> tree_paths f' = tree_paths f.
Proof. intros Hc Hch. by rewrite !tree_paths_unfold, Hc, Hch. Qed.

Lemma bind_insert_paths (chain : list StackFrame) (i : nat) (g g' : StackFrame) :
  tree_paths g = tree_paths g' ->
  <[i := g]> chain ≫= tree_paths = <[i := g']> chain ≫= tree_paths.
Proof.
  intros H. revert i. induction chain as [|x chain IH]; intros [|i]; simpl; try done.
  - by rewrite H.
  - by rewrite IH.
Qed.

Lemma plug_code (g : StackFrame) (c : Crumb) : code (plug g c) = code (c_parent c).
Proof. done. Qed.

Lemma plug_child (g : StackFrame) (c : Crumb) :
  child (plug g c) = <[c_slot c := g]> (child (c_parent c)).
Proof. done. Qed.

Lemma plug_paths (g g' : StackFrame) (c : Crumb) :
  tree_paths g = tree_paths g' -> tree_paths (plug g c) = tree_paths (plug g' c).
Proof.
  intros H. rewrite !tree_paths_unfold. unfold plug. cbn [code child set_child].
  by rewrite (bind_insert_paths _ _ g g' H).
Qed.

Lemma zip_paths (cs : list Crumb) (g g' : StackFrame) :
  tree_paths g = tree_paths g' -> tree_paths (zip g cs) = tree_paths (zip g' cs).
Proof.
  revert g g'. induction cs as [|c cs IH]; intros g g' H; [done|].
  cbn [zip]. by apply IH, plug_paths.
Qed.

Lemma bind_insert_delete (chain : list StackFrame) (i : nat) (g : StackFrame) :
  i < length chain ->
  <[i := g]> chain ≫= tree_paths ≡ₚ (delete i chain ≫= tree_paths) ++ tree_paths g.
Proof.
  revert i. induction chain as [|x chain IH]; intros [|i] Hi; simpl in *; try lia.
  - apply Permutation_app_comm.
  - rewrite IH by lia. by rewrite (assoc_L (++)).
Qed.

Lemma ctx_prefix_cons (c : Crumb) (cs : list Crumb) :
  ctx_prefix (c :: cs) = ctx_prefix cs ++ [code (c_parent c)].
Proof. unfold ctx_prefix. by rewrite fmap_cons, reverse_cons. Qed.

(** One step of [zip], in terms of paths. *)
Lemma ctx_paths_step (c : Crumb) (cs : list Crumb) (f : StackFrame) :
  c_slot c < length (child (c_parent c)) ->
  ctx_paths cs ++ (app (ctx_prefix cs) <$> tree_paths (plug f c))
  ≡ₚ ctx_paths (c :: cs) ++ (app (ctx_prefix (c :: cs)) <$> tree_paths f).
Proof.
  intros Hi. cbn [ctx_paths]. rewrite <- (assoc_L (++)). f_equiv.
  rewrite (tree_paths_unfold (plug f c)), plug_code, plug_child.
  rewrite !fmap_cons. rewrite <- app_comm_cons.
  f_equiv. rewrite bind_insert_delete by done.
  rewrite !fmap_app. f_equiv.
  rewrite <- !list_fmap_compose.
  match goal with |- ?X ≡ₚ ?Y => cut (X = Y); [by intros ->|] end.
  apply list_fmap_ext.
  intros _ q _. unfold compose. by rewrite ctx_prefix_cons, <- (assoc_L (++)).
Qed.

(** The frames of the whole tree are those outside the subtree of the
    current frame and those inside it. *)
Lemma zip_paths_split (cs : list Crumb) :
  slots_valid cs ->
  forall f, tree_paths (zip f cs)
            ≡ₚ ctx_paths cs ++ (app (ctx_prefix cs) <$> tree_paths f).
Proof.
  induction 1 as [|c cs Hc _ IH]; intros f.
  - cbn [zip ctx_paths app]. unfold ctx_prefix. simpl.
    by rewrite list_fmap_id.
  - cbn [zip]. rewrite IH. by apply ctx_paths_step.
Qed.

(** A path that continues below the current frame is not the path of a
    frame outside the subtree of the current frame. *)
Lemma ctx_paths_disjoint (cs : list Crumb) :
  slots_valid cs ->
  forall f q,
    NoDup (ctx_paths cs ++ (app (ctx_prefix cs) <$> tree_paths f)) ->
    ctx_prefix cs ++ code f :: q ∉ ctx_paths cs.
Proof.
  induction 1 as [|c cs Hc _ IH]; intros f q Hnd Hin.
  - by apply elem_of_nil in Hin.
  - cbn [ctx_paths] in Hin. rewrite ctx_prefix_cons, <- (assoc_L (++)) in Hin.
    cbn [app] in Hin. apply elem_of_app in Hin as [Hin|Hin].
    + apply (IH (plug f c) (code f :: q)); [|by rewrite plug_code].
      by rewrite ctx_paths_step.
    + apply list_elem_of_fmap in Hin as (x & Heq & Hx).
      apply app_inv_head in Heq. subst x.
      apply elem_of_cons in Hx as [Hx|Hx]; [done|].
      apply list_elem_of_fmap in Hx as (y & [= <-] & Hy).
      apply list_elem_of_bind in Hy as (k & Hq & Hk).
      destruct (tree_paths_head _ _ Hq) as (q' & [= Hcode _]).
      apply NoDup_app in Hnd as (_ & Hdis & _).
      apply (Hdis (ctx_prefix cs ++ [code (c_parent c); code f])).
      * cbn [ctx_paths]. apply elem_of_app. right.
        apply list_elem_of_fmap. eexists. split; [done|].
        apply elem_of_cons. right. apply list_elem_of_fmap.
        exists [code f]. split; [done|]. apply list_elem_of_bind.
        exists k. split; [|done]. rewrite Hcode. apply tree_paths_self.
      * apply list_elem_of_fmap. exists [code f].
        split; [|apply tree_paths_self].
        by rewrite ctx_prefix_cons, <- (assoc_L (++)).
Qed.

Lemma site_path_stack (f : StackFrame) (cs : list Crumb) (cl : CodeLocation) :
  site_path (stack_of f cs, cl) = ctx_prefix cs ++ [code f; cl].
Proof.
  unfold site_path, stack_of, ctx_prefix. cbn [fst snd].
  rewrite !reverse_cons. by rewrite <- (assoc_L (++)).
Qed.

Global Instance site_path_inj : Inj (=) (=) site_path.
Proof.
  intros [s1 c1] [s2 c2] H. unfold site_path in H. cbn [fst snd] in H.
  apply (f_equal reverse) in H. rewrite !reverse_involutive in H. by simplify_eq.
Qed.

Lemma sites_ok_ext (st : Profiler) (A B : list (list CodeLocation * CodeLocation)) :
  (forall x, x ∈ A <-> x ∈ B) -> sites_ok st A -> sites_ok st B.
Proof.
  intros HAB (H1 & H2 & H3 & H4). split_and!; [done|done| |].
  - apply Forall_forall. intros x Hx%HAB. by eapply Forall_forall in H3.
  - intros q. rewrite H4. apply or_iff_compat_l. rewrite !list_elem_of_fmap.
    split; intros (x & -> & Hx); exists x; (split; [done|]); by apply HAB.
Qed.

(** A call that finds its child leaves the paths of the tree as they
    are; a call that does not adds the path of the new child. *)
Lemma hook_enter_paths (n : Notification) (st st' : Profiler) :
  slots_valid (parents st) ->
  hook_enter n st = Done st' ->
  exists cl,
    parseCodeLocation (ar n) (heap st) = Done (cl, heap st') /\
    stack_of (current_frame st') (parents st')
    = cl :: stack_of (current_frame st) (parents st) /\
    slots_valid (parents st') /\
    (((cl ∈ code <$> child (current_frame st)) /\
      tree_paths (root_frame st') = tree_paths (root_frame st)) \/
     ((cl ∉ code <$> child (current_frame st)) /\
      tree_paths (root_frame st')
      ≡ₚ site_path (stack_of (current_frame st) (parents st), cl)
         :: tree_paths (root_frame st))).
Proof.
  intros Hval. unfold hook_enter.
  destruct (findChildInCurrent (ar n) st) as [[[i c] st1]|] eqn:Hf; [|done].
  cbn [bind]. intros [= <-]. cbn [current_frame parents heap].
  destruct (findChildInCurrent_cases _ _ _ _ _ Hf)
    as (cl & Hparse & Hpar & Hcode & Hi & Hcase).
  exists cl. split; [done|].
  set (frame' := set_overhead _ _).
  assert (Hcur1 : code (current_frame st1) = code (current_frame st)).
  { by destruct Hcase as [[-> _]|(-> & _)]. }
  split.
  { unfold stack_of. rewrite fmap_cons, Hpar. cbn. congruence. }
  split.
  { apply Forall_cons. split; [|by rewrite Hpar].
    cbn. by eapply lookup_lt_Some. }
  assert (Hroot : tree_paths (root_frame (mkProfiler frame'
                    (mkCrumb (current_frame st1) i :: parents st1) (heap st1)))
                  = tree_paths (zip (current_frame st1) (parents st))).
  { unfold root_frame. cbn [current_frame parents zip]. rewrite Hpar.
    apply zip_paths. rewrite (plug_paths frame' c) by (by apply tree_paths_fields).
    apply tree_paths_fields; [done|].
    rewrite plug_child. cbn. by apply list_insert_id. }
  rewrite Hroot. destruct Hcase as [[-> Hin]|(-> & _ & -> & Hnin)].
  - left. done.
  - right. split; [done|].
    unfold root_frame. rewrite !zip_paths_split by done. rewrite site_path_stack.
    set (cur := current_frame st).
    assert (Hp : tree_paths (set_child (set_code cl zero_frame :: child cur) cur)
                 ≡ₚ [code cur; cl] :: tree_paths cur).
    { rewrite !tree_paths_unfold. cbn [code child set_child].
      rewrite bind_cons. change (tree_paths (set_code cl zero_frame)) with [[cl]].
      cbn [app fmap list_fmap]. apply perm_swap. }
    by rewrite Hp, fmap_cons, <- Permutation_middle.
Qed.

Lemma hook_leave_paths (n : Notification) (st st' : Profiler) :
  slots_valid (parents st) ->
  hook_leave n st = Done st' ->
  tree_paths (root_frame st') = tree_paths (root_frame st) /\
  slots_valid (parents st') /\
  heap st' = heap st /\
  exists top,
    stack_of (current_frame st) (parents st)
    = top :: stack_of (current_frame st') (parents st').
Proof.
  intros Hval. unfold hook_leave.
  destruct (parents st) as [|c up] eqn:Hpar; [done|].
  intros [= <-]. cbn [current_frame parents heap]. split_and!.
  - unfold root_frame. rewrite Hpar. cbn [current_frame parents zip].
    apply zip_paths. etrans; [by apply tree_paths_fields|].
    apply plug_paths. by apply tree_paths_fields.
  - by apply Forall_cons in Hval as [_ ?].
  - done.
  - by eexists.
Qed.

Lemma site_in_tree (st : Profiler) (cl : CodeLocation) :
  slots_valid (parents st) ->
  cl ∈ code <$> child (current_frame st) ->
  site_path (stack_of (current_frame st) (parents st), cl)
  ∈ tree_paths (root_frame st).
Proof.
  intros Hval Hin. unfold root_frame. rewrite zip_paths_split by done.
  rewrite site_path_stack. apply elem_of_app. right.
  apply list_elem_of_fmap. eexists. split; [done|].
  rewrite tree_paths_unfold. apply elem_of_cons. right.
  apply list_elem_of_fmap. exists [cl]. split; [done|]. by apply tree_paths_child.
Qed.

Lemma site_not_in_tree (st : Profiler) (cl : CodeLocation) :
  slots_valid (parents st) ->
  NoDup (tree_paths (root_frame st)) ->
  cl ∉ code <$> child (current_frame st) ->
  site_path (stack_of (current_frame st) (parents st), cl)
  ∉ tree_paths (root_frame st).
Proof.
  intros Hval Hnd Hnin. unfold root_frame in *.
  rewrite zip_paths_split in Hnd by done. rewrite zip_paths_split by done.
  rewrite site_path_stack. intros [Hin|Hin]%elem_of_app.
  - by eapply ctx_paths_disjoint.
  - apply list_elem_of_fmap in Hin as (x & Heq & Hx).
    apply app_inv_head in Heq. subst x.
    rewrite tree_paths_unfold in Hx. apply elem_of_cons in Hx as [Hx|Hx]; [done|].
    apply list_elem_of_fmap in Hx as (y & [= <-] & Hy).
    by apply tree_paths_child in Hy.
Qed.

Lemma hook_enter_sites (n : Notification) (st st' : Profiler)
    (A : list (list CodeLocation * CodeLocation)) :
  sites_ok st A ->
  hook_enter n st = Done st' ->
  exists cl,
    parseCodeLocation (ar n) (heap st) = Done (cl, heap st') /\
    stack_of (current_frame st') (parents st')
    = cl :: stack_of (current_frame st) (parents st) /\
    sites_ok st' ((stack_of (current_frame st) (parents st), cl) :: A).
Proof.
  intros (Hval & Hnd & Hne & Hmem) Henter.
  destruct (hook_enter_paths n st st' Hval Henter)
    as (cl & Hparse & Hstack & Hval' & Hcase).
  exists cl. split; [done|]. split; [done|].
  split; [done|].
  assert (Hne' : Forall (fun s => s.1 <> [])
                   ((stack_of (current_frame st) (parents st), cl) :: A)).
  { apply Forall_cons. split; [done|done]. }
  destruct Hcase as [[Hin Heq]|[Hnin Hperm]].
  - rewrite Heq. split; [done|]. split; [done|].
    intros q. rewrite Hmem, fmap_cons, elem_of_cons. split; [tauto|].
    intros [H|[->|H]]; [tauto| |tauto].
    apply Hmem. by apply site_in_tree.
  - pose proof (site_not_in_tree st cl Hval Hnd Hnin) as Hnew.
    split; [|split; [done|]].
    + rewrite Hperm. by apply NoDup_cons.
    + intros q. rewrite Hperm, fmap_cons, !elem_of_cons, Hmem. tauto.
Qed.

Lemma run_sites (ns : list Notification) :
  forall st st' A,
    sites_ok st A ->
    run ns st = Done st' ->
    sites_ok st'
      (observed ns (stack_of (current_frame st) (parents st)) (heap st) ++ A).
Proof.
  induction ns as [|n ns IH]; intros st st' A Hok Hrun.
  - injection Hrun as <-. done.
  - cbn [run] in Hrun.
    destruct (callhook n st) as [st1|] eqn:Hc; [|done]. cbn [bind] in Hrun.
    unfold callhook in Hc. cbn [observed].
    destruct (lua_Debug.event (ar n)).
    + destruct (hook_enter_sites n st st1 A Hok Hc) as (cl & Hparse & Hstack & Hok1).
      rewrite Hparse. specialize (IH st1 st' _ Hok1 Hrun). rewrite Hstack in IH.
      eapply sites_ok_ext; [|exact IH].
      intros x. cbn [app].
      repeat (rewrite elem_of_app || rewrite elem_of_cons). tauto.
    + destruct Hok as (Hval & Hnd & Hne & Hmem).
      destruct (hook_leave_paths n st st1 Hval Hc) as (Hp & Hval1 & Hh & top & Hs).
      rewrite Hs. unfold stack_of at 1. rewrite <- Hh.
      apply (IH st1 st' A); [|done]. unfold sites_ok. by rewrite Hp.
    + injection Hc as <-. by apply IH.
    + injection Hc as <-. by apply IH.
    + destruct Hok as (Hval & Hnd & Hne & Hmem).
      destruct (hook_leave_paths n st st1 Hval Hc) as (Hp & Hval1 & Hh & top & Hs).
      rewrite Hs. unfold stack_of at 1. rewrite <- Hh.
      apply (IH st1 st' A); [|done]. unfold sites_ok. by rewrite Hp.
Qed.

Lemma sites_ok_init : sites_ok profiler_init [].
Proof.
  split_and!.
  - constructor.
  - apply (bool_decide_unpack _). by vm_compute.
  - constructor.
  - intros q. cbn. rewrite list_elem_of_singleton. split; [tauto|].
    intros [H|H]; [done|]. by apply elem_of_nil in H.
Qed.

(** With locations compared by type and address, as the search loop
    compares them: a call whose location has the type and the address of
    the location of a child of the current frame uses that child, and
    any other call adds one child.  When the run is over, the tree has,
    besides the root, one frame for each distinct pair of a stack of
    locations and a location that a call event has shown. *)
Theorem one_frame_per_call_site (ns : list Notification) (st : Profiler) :
  run ns profiler_init = Done st ->
  count_nodes (root_frame st)
  = 1 + length (remove_dups (observed ns [code zero_frame] [])).
Proof.
  intros Hrun.
  pose proof (run_sites ns profiler_init st [] sites_ok_init Hrun) as Hok.
  change (stack_of (current_frame profiler_init) (parents profiler_init))
    with [code zero_frame] in Hok.
  change (heap profiler_init) with (@nil string) in Hok.
  rewrite app_nil_r in Hok. set (obs := observed _ _ _) in *.
  destruct Hok as (_ & Hnd & Hne & Hmem).
  rewrite <- tree_paths_length.
  assert (Hperm : tree_paths (root_frame st)
                  ≡ₚ [code zero_frame] :: (site_path <$> remove_dups obs)).
  { apply NoDup_Permutation; [done| |].
    - apply NoDup_cons. split.
      + intros (s & Hs & Hin)%list_elem_of_fmap.
        rewrite elem_of_remove_dups in Hin.
        pose proof (proj1 (Forall_forall _ _) Hne s Hin) as Hs1.
        destruct s as [[|x s] cl]; [by destruct Hs1|].
        unfold site_path in Hs. cbn [fst snd] in Hs.
        rewrite !reverse_cons in Hs. apply (f_equal length) in Hs.
        rewrite !length_app in Hs. simpl in Hs. lia.
      + apply NoDup_fmap_2; [apply _ | apply NoDup_remove_dups].
    - intros q. rewrite Hmem, elem_of_cons, !list_elem_of_fmap.
      apply or_iff_compat_l. split; intros (s & -> & Hs); exists s;
        (split; [done|]); by apply elem_of_remove_dups. }
  rewrite Hperm. cbn [length]. by rewrite length_fmap.
Qed.

Lemma one_frame_per_call_site_witness :
  exists st,
    run same_call_twice profiler_init = Done st /\
    count_nodes (root_frame st) = 3 /\
    count_nodes (root_frame st)
    = 1 + length (remove_dups (observed same_call_twice [code zero_frame] [])).
Proof.
  eexists. split; [vm_compute; reflexivity|]. split; [vm_compute; reflexivity|].
  apply one_frame_per_call_site. vm_compute. reflexivity.
Defined.

(** C4.  The same anonymous function is called twice from the main
    chunk: the notifications show two distinct pairs of a parent path and
    a location, the text of the anonymous location being the same at
    both calls, yet the tree holds three frames below the root.  The
    search loop compares the address of the text, which [strdup] has just
    allocated, with the addresses stored in the children: the second call
    finds no child to use again and makes a frame of its own. *)
Lemma anonymous_site_not_reused :
  exists st,
    run anonymous_twice profiler_init = Done st /\
    parents st = [] /\
    length (remove_dups (observed_sites anonymous_twice [])) = 2 /\
    count_nodes (root_frame st) - 1 = 3 /\
    count_nodes (root_frame st) - 1
    <> length (remove_dups (observed_sites anonymous_twice [])).
Proof. eexists. split; [vm_compute; reflexivity|]. by vm_compute. Qed.

(** ** Call sites that are used again, and call sites that never are *)

Lemma hook_enter_count (n : Notification) (st st' : Profiler) :
  slots_valid (parents st) ->
  hook_enter n st = Done st' ->
  exists cl,
    parseCodeLocation (ar n) (heap st) = Done (cl, heap st') /\
    count_nodes (root_frame st')
    = count_nodes (root_frame st)
      + (if bool_decide (cl ∈ code <$> child (current_frame st)) then 0 else 1).
Proof.
  intros Hval Henter.
  destruct (hook_enter_paths n st st' Hval Henter)
    as (cl & Hparse & _ & _ & Hcase).
  exists cl. split; [done|]. rewrite <- !tree_paths_length.
  destruct Hcase as [[Hin ->]|[Hnin ->]].
  - rewrite bool_decide_eq_true_2 by done. lia.
  - rewrite bool_decide_eq_false_2 by done. simpl. lia.
Qed.

Lemma parseCodeLocation_bounded (a : lua_Debug.t) (h h' : Heap) (cl : CodeLocation) :
  parseCodeLocation a h = Done (cl, h') ->
  length h <= length h' /\ heap_bounded h' cl /\
  (type cl = CLT_LuaAnonymous -> addr cl = HeapPtr (length h)).
Proof.
  unfold parseCodeLocation, sprintf, strdup, heap_bounded.
  destruct (store _ _ _) as [[]|]; cbn [bind];
  repeat case_match; intros ?; simplify_eq/=;
    (split; [rewrite ?length_app; simpl; lia|]);
    (split; [intros b ?; simplify_eq; rewrite length_app; simpl; lia | done]).
Qed.

Lemma heap_bounded_mono (h h' : Heap) (cl : CodeLocation) :
  length h <= length h' -> heap_bounded h cl -> heap_bounded h' cl.
Proof. intros Hle Hb b Hp. specialize (Hb b Hp). lia. Qed.

Lemma cursor_in_tree (cs : list Crumb) (f : StackFrame) :
  slots_valid cs -> ctx_prefix cs ++ [code f] ∈ tree_paths (zip f cs).
Proof.
  intros Hval. rewrite zip_paths_split by done. apply elem_of_app. right.
  apply list_elem_of_fmap. eexists. split; [done | apply tree_paths_self].
Qed.

Lemma hook_enter_bounded (n : Notification) (st st' : Profiler) :
  slots_valid (parents st) ->
  tree_bounded st ->
  hook_enter n st = Done st' ->
  tree_bounded st'.
Proof.
  intros Hval Hb Henter.
  destruct (hook_enter_paths n st st' Hval Henter)
    as (cl & Hparse & _ & _ & Hcase).
  apply parseCodeLocation_bounded in Hparse as (Hle & Hcl & _).
  assert (Hold : Forall (Forall (heap_bounded (heap st')))
                   (tree_paths (root_frame st))).
  { eapply Forall_impl; [exact Hb|]. intros q Hq.
    eapply Forall_impl; [exact Hq|]. intros x. by apply heap_bounded_mono. }
  unfold tree_bounded. destruct Hcase as [[_ ->]|[_ ->]]; [done|].
  apply Forall_cons. split; [|done].
  rewrite site_path_stack.
  change [code (current_frame st); cl] with ([code (current_frame st)] ++ [cl]).
  rewrite (assoc_L (++)). apply Forall_app. split.
  - eapply Forall_forall in Hold; [exact Hold|]. by apply cursor_in_tree.
  - by apply Forall_singleton.
Qed.

Lemma run_bounded (ns : list Notification) :
  forall st st',
    slots_valid (parents st) -> tree_bounded st ->
    run ns st = Done st' ->
    slots_valid (parents st') /\ tree_bounded st'.
Proof.
  induction ns as [|n ns IH]; intros st st' Hval Hb Hrun.
  - by injection Hrun as <-.
  - cbn [run] in Hrun.
    destruct (callhook n st) as [st1|] eqn:Hc; [|done]. cbn [bind] in Hrun.
    apply (IH st1 st'); [| |done]; unfold callhook in Hc;
      destruct (lua_Debug.event (ar n)); simplify_eq; try done.
    + by destruct (hook_enter_paths n st st1 Hval Hc) as (? & ? & ? & ? & ?).
    + by destruct (hook_leave_paths n st st1 Hval Hc) as (? & ? & ?).
    + by destruct (hook_leave_paths n st st1 Hval Hc) as (? & ? & ?).
    + by eapply hook_enter_bounded.
    + destruct (hook_leave_paths n st st1 Hval Hc) as (Hp & _ & Hh & _).
      unfold tree_bounded. by rewrite Hp, Hh.
    + destruct (hook_leave_paths n st st1 Hval Hc) as (Hp & _ & Hh & _).
      unfold tree_bounded. by rewrite Hp, Hh.
Qed.

(** A call classified as an anonymous location always gets a new frame:
    the address of its location is a block allocated for this call,
    which no frame recorded before can hold. *)
Lemma anonymous_call_adds_frame (ns : list Notification) (n : Notification)
    (st st' : Profiler) (cl : CodeLocation) (h' : Heap) :
  run ns profiler_init = Done st ->
  parseCodeLocation (ar n) (heap st) = Done (cl, h') ->
  type cl = CLT_LuaAnonymous ->
  hook_enter n st = Done st' ->
  count_nodes (root_frame st') = S (count_nodes (root_frame st)).
Proof.
  intros Hrun Hparse Hty Henter.
  destruct (run_bounded ns profiler_init st) as [Hval Hb]; [constructor| |done|].
  { unfold tree_bounded. cbn. repeat constructor. by intros b. }
  destruct (hook_enter_count n st st' Hval Henter) as (cl' & Hparse' & ->).
  rewrite Hparse in Hparse'. injection Hparse' as <- _.
  apply parseCodeLocation_bounded in Hparse as (_ & _ & Hfresh).
  specialize (Hfresh Hty). rewrite bool_decide_eq_false_2; [lia|].
  intros Hin. pose proof (site_in_tree st cl Hval Hin) as Hpath.
  eapply Forall_forall in Hb; [|exact Hpath].
  rewrite site_path_stack, Forall_app, Forall_cons, Forall_singleton in Hb.
  destruct Hb as (_ & _ & Hb). specialize (Hb _ Hfresh). lia.
Qed.

(** ** Timing of the recorded frames *)












(** ** The tree reducer: overhead *)





(** ** The tree reducer: self time *)

Lemma chain_update_child_time (its : list StackFrame) (s : Z) :
  chain_update
    (fun it (_ : Z) =>
       (calculate_child_time it,
        wrap64 (elapsed (calculate_child_time it)
                + children_time (calculate_child_time it)))) its s =
    (map calculate_child_time its,
     match last its with
     | Some it =>
         wrap64 (elapsed (calculate_child_time it)
                 + children_time (calculate_child_time it))
     | None => s
     end).
Proof.
  revert s. induction its as [|it rest IH]; intros s; [done|].
  cbn [chain_update]. rewrite IH. destruct rest as [|it2 rest]; [done|].
  change (last (it :: it2 :: rest)) with (last (it2 :: rest)).
  destruct (last (it2 :: rest)) eqn:E; [done|]. by apply last_None in E.
Qed.

(** What [calculate_child_time] leaves in a frame: [children_time] is the
    contribution of the last child of the chain alone, zero without
    children, and [elapsed] is decreased by that value. *)
Lemma calculate_child_time_unfold (f : StackFrame) :
  let t := match last (child f) with
           | Some it =>
               wrap64 (elapsed (calculate_child_time it)
                       + children_time (calculate_child_time it))
           | None => 0%Z
           end in
  calculate_child_time f =
    mkStackFrame (start f) (wrap64 (elapsed f - t))
                 (map calculate_child_time (child f)) (code f) t (overhead f).
Proof.
  destruct f as [s e ch c ct o]. cbn [calculate_child_time child].
  rewrite (chain_update_child_time ch 0). reflexivity.
Qed.

(** C1.  On the tree recorded for a main chunk that calls [A] for 100
    cycles and [B] for 50 cycles, the pass leaves the main chunk with
    [children_time = 100] and [elapsed = 200], whereas its children add up
    to 150: only the child at the end of the chain is counted. *)
Theorem calculate_child_time_two_calls :
  exists st m,
    run two_calls profiler_init = Done st /\
    parents st = [] /\
    child (calculate_child_time (reduce_overhead (root_frame st))) = [m] /\
    length (child m) = 2 /\
    children_sum m = 150%Z /\
    children_time m = 100%Z /\
    elapsed m = 200%Z.
Proof.
  eexists _, _. split; [vm_compute; reflexivity|].
  split; [reflexivity|]. split; [vm_compute; reflexivity|].
  vm_compute. done.
Qed.

(** ** The flattener *)

Lemma strlen_app (a b : string) : strlen (a +:+ b) = strlen a + strlen b.
Proof. induction a as [|c a IH]; simpl; [done | by rewrite IH]. Qed.

Lemma sprintf_overflow (size : nat) (text : string) :
  size <= strlen text -> sprintf size text = Fault OutOfBounds.
Proof. intros H. unfold sprintf. rewrite store_outside; [done | lia]. Qed.

(** The buffer of a path has room for the prefix, the separator, the
    name and the terminating zero, and none for the tag: the path never
    fits. *)
Lemma myname_overflows (prefix fname : string) (ty : CodeLocationType) :
  sprintf (strlen prefix + strlen fname + 2)
          (prefix +:+ ";" +:+ frame_prefix ty +:+ fname)
  = Fault OutOfBounds.
Proof.
  apply sprintf_overflow. rewrite !strlen_app.
  assert (2 <= strlen (frame_prefix ty)) by (destruct ty; simpl; lia).
  simpl. lia.
Qed.

Lemma frame_name_fault (P : Platform) (h : Heap) (cl : CodeLocation)
    (r : Resolver) (f : fault) :
  frame_name P h cl r = Fault f -> f = OutOfBounds.
Proof.
  unfold frame_name, resovle, store.
  repeat case_match; cbn [bind]; intros ?; by simplify_eq.
Qed.

Lemma append_children_fault (P : Platform) (h : Heap) (frame : StackFrame)
    (prefix : string) (s : list FlatStack.t * nat * Resolver) :
  append_children P h frame prefix s = Fault OutOfBounds.
Proof.
  destruct frame as [st e ch c ct o], s as [[array index] r].
  cbn [append_children code].
  destruct (frame_name P h c r) as [[fname r']|f] eqn:E; cbn [bind].
  - by rewrite myname_overflows.
  - by rewrite (frame_name_fault _ _ _ _ _ E).
Qed.

(** C10.  The main chunk is entered and left.  The path of its frame is
    "root;LUA:Lua:main", the prefix "root", the separator, the tag "LUA:"
    and the name "Lua:main", as the claim builds it: 17 characters and a
    terminating zero.  The buffer [append_children] allocates for it has
    [strlen(prefix) + strlen(frame_name) + 2 = 14] bytes, the length of
    the tag is left out: [sprintf] writes outside the buffer, and the
    flattener does not return the record. *)
Theorem append_children_overflows_myname (P : Platform) :
  exists st,
    run one_call profiler_init = Done st /\
    parents st = [] /\
    "root" +:+ ";" +:+ frame_prefix CLT_Main +:+ "Lua:main" = "root;LUA:Lua:main" /\
    strlen "root;LUA:Lua:main" + 1 = 18 /\
    strlen "root" + strlen "Lua:main" + 2 = 14 /\
    sprintf 14 "root;LUA:Lua:main" = Fault OutOfBounds /\
    flatten_stacks P (heap st)
      (calculate_child_time (reduce_overhead (root_frame st))) resolver_init
    = Fault OutOfBounds /\
    main P (mkExecution true (OKAY P) one_call 0 true) = Fault OutOfBounds.
Proof.
  eexists. split; [vm_compute; reflexivity|].
  split; [reflexivity|]. split; [reflexivity|]. split; [reflexivity|].
  split; [reflexivity|]. split; [reflexivity|].
  split; [vm_compute; reflexivity|].
  unfold main. cbn [premake_init sym_initialize notifications premake_execute
                     can_open]. rewrite Z.eqb_refl. vm_compute. reflexivity.
Qed.

(** ** The folder *)

Lemma fold_insert_next (done junk rest : list FlatStack.t) (cur rd : FlatStack.t) :
  <[S (length done) := rd]> (done ++ cur :: junk ++ rd :: rest)
  = (done ++ [cur]) ++ rd :: drop 1 (junk ++ [rd]) ++ rest.
Proof.
  rewrite <- (assoc_L (++) done [cur]). simpl.
  replace (S (length done)) with (length done + 1) by lia.
  rewrite insert_app_r. f_equal. simpl.
  destruct junk as [|j junk]; simpl; [done|].
  rewrite drop_0. by rewrite <- (assoc_L (++) junk [rd] rest).
Qed.

Lemma fold_loop_spec (rest : list FlatStack.t) :
  forall fuel done cur junk,
    length rest <= fuel ->
    exists out,
      fold_loop fuel (done ++ cur :: junk ++ rest)
                (length (done ++ cur :: junk ++ rest))
                (length done + 1 + length junk) (length done)
      = Done (out, length done + length (fold_acc cur rest) - 1) /\
      take (length done + length (fold_acc cur rest)) out
      = done ++ fold_acc cur rest /\
      length out = length (done ++ cur :: junk ++ rest).
Proof.
  induction rest as [|rd rest IH]; intros fuel done cur junk Hfuel.
  - exists (done ++ cur :: junk ++ []). split_and!; [| |done].
    + destruct fuel; simpl;
        rewrite !length_app; simpl; rewrite length_app; simpl;
        rewrite Nat.add_0_r;
        replace (length done + 1 + length junk =? length done + S (length junk))%nat
          with true by (symmetry; apply Nat.eqb_eq; lia);
        do 2 f_equal; lia.
    + simpl. rewrite take_app_add'; [|done]. done.
  - destruct fuel as [|fuel]; [simpl in Hfuel; lia|].
    simpl in Hfuel. cbn [fold_loop].
    replace (length done + 1 + length junk =?
             length (done ++ cur :: junk ++ rd :: rest))%nat with false.
    2:{ symmetry. apply Nat.eqb_neq. rewrite length_app. simpl.
        rewrite length_app. simpl. lia. }
    replace ((done ++ cur :: junk ++ rd :: rest) !! (length done + 1 + length junk))
      with (Some rd).
    2:{ symmetry. rewrite <- Nat.add_assoc. rewrite lookup_app_r by lia.
        replace (length done + (1 + length junk) - length done)
          with (S (length junk)) by lia.
        simpl. by rewrite list_lookup_middle. }
    rewrite list_lookup_middle by done.
    cbn [fold_acc].
    destruct (strcmp (FlatStack.name rd) (FlatStack.name cur) =? 0)%Z.
    + set (cur' := FlatStack.mk _ _).
      rewrite insert_app_r_alt by lia. rewrite Nat.sub_diag. simpl.
      destruct (IH fuel done cur' (junk ++ [rd]) ltac:(lia)) as (out & H1 & H2 & H3).
      exists out. split_and!; [|done|].
      * rewrite <- H1. f_equal; [by rewrite <- (assoc_L (++) junk) | len | len].
      * rewrite H3. len.
    + replace (S (length done) <? length (done ++ cur :: junk ++ rd :: rest))%nat
        with true by (symmetry; apply Nat.ltb_lt; len).
      rewrite fold_insert_next.
      destruct (IH fuel (done ++ [cur]) rd (drop 1 (junk ++ [rd])) ltac:(lia))
        as (out & H1 & H2 & H3).
      exists out. split_and!.
      * etrans; [|etrans; [exact H1|]]; [f_equal; len | do 2 f_equal; len].
      * rewrite <- (assoc_L (++) done [cur]) in H2. simpl in H2.
        rewrite <- H2. f_equal. len.
      * rewrite H3. len.
Qed.

(** On a non-empty array [fold_stacks] returns; the array then starts
    with the folded records and the value returned is the index of the
    last of them. *)
Lemma fold_stacks_folded (stacks : list FlatStack.t) :
  stacks <> [] ->
  exists out,
    fold_stacks stacks (length stacks)
    = Done (out, length (folded stacks) - 1) /\
    take (length (folded stacks)) out = folded stacks /\
    length out = length stacks.
Proof.
  destruct stacks as [|x rest]; [done|]. intros _.
  destruct (fold_loop_spec rest (length (x :: rest)) [] x [] ltac:(simpl; lia))
    as (out & H1 & H2 & H3).
  exists out. done.
Qed.

Lemma fold_acc_nonempty (cur : FlatStack.t) (rest : list FlatStack.t) :
  0 < length (fold_acc cur rest).
Proof.
  revert cur. induction rest as [|rd rest IH]; intros cur; simpl; [lia|].
  destruct (_ =? _)%Z; [apply IH | simpl; lia].
Qed.

(** What is printed after the fold: the folded records without the last
    one. *)
Lemma fold_stacks_printed (stacks : list FlatStack.t) :
  stacks <> [] ->
  exists out n,
    fold_stacks stacks (length stacks) = Done (out, n) /\
    S n = length (folded stacks) /\
    printed out n = take n (folded stacks).
Proof.
  intros Hne. destruct (fold_stacks_folded stacks Hne) as (out & H1 & H2 & H3).
  exists out, (length (folded stacks) - 1). split; [done|].
  assert (0 < length (folded stacks)).
  { destruct stacks as [|x rest]; [done|]. apply fold_acc_nonempty. }
  split; [lia|]. unfold printed.
  trans (take (length (folded stacks) - 1) (take (length (folded stacks)) out));
    [rewrite take_take; f_equal; lia | by rewrite H2].
Qed.

Lemma fold_acc_head (cur : FlatStack.t) (rest : list FlatStack.t) :
  exists e tl, fold_acc cur rest = FlatStack.mk (FlatStack.name cur) e :: tl.
Proof.
  revert cur. induction rest as [|rd rest IH]; intros cur; simpl.
  - destruct cur. by eexists _, _.
  - destruct (_ =? _)%Z.
    + destruct (IH (FlatStack.mk (FlatStack.name cur)
                      (wrap64 (FlatStack.elapsed cur + FlatStack.elapsed rd))))
        as (e & tl & ->). by eexists _, _.
    + destruct cur. by eexists _, _.
Qed.

Lemma fold_acc_sorted (cur : FlatStack.t) (rest : list FlatStack.t) :
  Sorted stack_le (cur :: rest) -> Sorted stack_le (fold_acc cur rest).
Proof.
  revert cur. induction rest as [|rd rest IH]; intros cur Hs; simpl.
  - by repeat constructor.
  - apply Sorted_inv in Hs as [Hs Hhd]. apply HdRel_inv in Hhd.
    destruct (strcmp (FlatStack.name rd) (FlatStack.name cur) =? 0)%Z eqn:E.
    + apply Z.eqb_eq, strcmp_eq in E. apply IH.
      apply Sorted_inv in Hs as [Hs Hhd2]. constructor; [done|].
      destruct Hhd2 as [|b l Hb]; constructor.
      unfold stack_le, qsort_compare_stacks in *. simpl. by rewrite <- E.
    + constructor; [by apply IH|].
      destruct (fold_acc_head rd rest) as (e & tl & ->). constructor.
      unfold stack_le, qsort_compare_stacks in *. done.
Qed.

Lemma folded_sorted (stacks : list FlatStack.t) :
  Sorted stack_le stacks -> Sorted stack_le (folded stacks).
Proof. destruct stacks; [done|]. apply fold_acc_sorted. Qed.

Lemma Sorted_take {A} (R : relation A) (n : nat) (l : list A) :
  Sorted R l -> Sorted R (take n l).
Proof.
  revert n. induction l as [|x l IH]; intros [|n] Hs; simpl; try by constructor.
  apply Sorted_inv in Hs as [Hs Hhd]. constructor; [by apply IH|].
  destruct Hhd; destruct n; simpl; by constructor.
Qed.

Lemma Sorted_adjacent (l : list FlatStack.t) :
  Sorted stack_le l -> adjacent_sorted l.
Proof.
  induction 1 as [|x l Hs IH Hhd]; intros i a b Ha Hb; [done|].
  destruct i as [|i]; simpl in *.
  - destruct Hhd as [|y l Hxy]; [done|]. simplify_eq/=. exact Hxy.
  - by eapply IH.
Qed.

(** Folding a sorted, non-empty array leaves a sorted report. *)
Lemma fold_printed_sorted (stacks : list FlatStack.t) :
  stacks <> [] ->
  Sorted stack_le stacks ->
  exists out n,
    fold_stacks stacks (length stacks) = Done (out, n) /\
    Sorted stack_le (printed out n).
Proof.
  intros Hne Hs. destruct (fold_stacks_printed stacks Hne) as (out & n & H1 & H2 & H3).
  exists out, n. split; [done|]. rewrite H3.
  by apply Sorted_take, folded_sorted.
Qed.

(** C9.  For a non-empty array sorted by [strcmp] on the names,
    [fold_stacks] returns, and in the records that are then printed each
    name is at most the next one under [strcmp]. *)
Theorem fold_stacks_sorted (stacks : list FlatStack.t) :
  stacks <> [] ->
  Sorted stack_le stacks ->
  exists out n,
    fold_stacks stacks (length stacks) = Done (out, n) /\
    adjacent_sorted (printed out n).
Proof.
  intros Hne Hs. destruct (fold_printed_sorted stacks Hne Hs) as (out & n & H1 & H2).
  exists out, n. split; [done | by apply Sorted_adjacent].
Qed.

Lemma sample_stacks_sorted : Sorted stack_le sample_stacks.
Proof.
  unfold sample_stacks. repeat constructor; unfold stack_le; by vm_compute.
Qed.

Lemma fold_stacks_sorted_witness :
  exists out n,
    fold_stacks sample_stacks (length sample_stacks) = Done (out, n) /\
    adjacent_sorted (printed out n).
Proof.
  apply (fold_stacks_sorted sample_stacks); [done | apply sample_stacks_sorted].
Defined.

(** C2.  An anonymous function is called twice from the main chunk.  The
    sorted records hold two distinct paths; the fold adds up the two
    records of the anonymous function and returns 1, the index of the
    record it made of them, and the report holds the line of the main
    chunk alone: the record of the last path is not printed. *)
Theorem fold_stacks_loses_last_record :
  Sorted stack_le anonymous_stacks /\
  folded anonymous_stacks =
    [ FlatStack.mk "root;LUA:Lua:main" 38;
      FlatStack.mk "root;LUA:Lua:main;LUA:os.lua:12" 18 ] /\
  (exists out,
     fold_stacks anonymous_stacks (length anonymous_stacks) = Done (out, 1) /\
     printed out 1 = [FlatStack.mk "root;LUA:Lua:main" 38]) /\
  (let* (stacks, nstacks) :=
     fold_stacks (qsort anonymous_stacks) (length anonymous_stacks) in
   print_stacks true stacks nstacks)
  = Done (Some ("root;LUA:Lua:main 38" +:+ newline)).
Proof.
  split_and!.
  - unfold anonymous_stacks. repeat constructor; unfold stack_le; by vm_compute.
  - by vm_compute.
  - eexists. split; by vm_compute.
  - by vm_compute.
Qed.

(** When no record has the name of its predecessor, folding changes
    nothing in the array and returns the index of its last record. *)
Lemma fold_acc_distinct (cur : FlatStack.t) (rest : list FlatStack.t) :
  (forall i a b, (cur :: rest) !! i = Some a -> (cur :: rest) !! S i = Some b ->
     FlatStack.name a <> FlatStack.name b) ->
  fold_acc cur rest = cur :: rest.
Proof.
  revert cur. induction rest as [|rd rest IH]; intros cur Hd; simpl; [done|].
  rewrite strcmp_eqb. rewrite bool_decide_eq_false_2.
  - f_equal. apply IH. intros i a b Ha Hb. by apply (Hd (S i)).
  - intros E. by apply (Hd 0 cur rd).
Qed.

Lemma fold_stacks_distinct (stacks : list FlatStack.t) :
  stacks <> [] ->
  (forall i a b, stacks !! i = Some a -> stacks !! S i = Some b ->
     FlatStack.name a <> FlatStack.name b) ->
  fold_stacks stacks (length stacks) = Done (stacks, length stacks - 1).
Proof.
  intros Hne Hd. destruct (fold_stacks_folded stacks Hne) as (out & H1 & H2 & H3).
  assert (Hf : folded stacks = stacks).
  { destruct stacks as [|x rest]; [done|]. by apply fold_acc_distinct. }
  rewrite Hf in H1, H2. rewrite H1. do 2 f_equal.
  rewrite <- H3 in H2. by rewrite firstn_all in H2.
Qed.

(** C6.  The two records of [distinct_stacks] have different paths.  The
    fold leaves the array as it is and returns 1, so the record set that
    results, the first record alone, is not the set that was given. *)
Theorem fold_stacks_not_idempotent :
  NoDup (map FlatStack.name distinct_stacks) /\
  fold_stacks distinct_stacks (length distinct_stacks) = Done (distinct_stacks, 1) /\
  printed distinct_stacks 1 = [FlatStack.mk "root;C:0x0000000000401000" 7] /\
  printed distinct_stacks 1 <> distinct_stacks.
Proof.
  split; [|by vm_compute].
  apply (bool_decide_unpack _). by vm_compute.
Qed.

(** ** The sort *)

Global Instance stack_le_total : Total stack_le.
Proof.
  intros a b. unfold stack_le, qsort_compare_stacks.
  generalize (FlatStack.name a) (FlatStack.name b). clear a b.
  induction s as [|c s IH]; intros [|d t]; simpl; try lia.
  destruct (byte_of c <? byte_of d)%Z, (byte_of d <? byte_of c)%Z; try lia.
  apply IH.
Qed.

Lemma qsort_sorted (stacks : list FlatStack.t) : Sorted stack_le (qsort stacks).
Proof. apply Sorted_merge_sort. apply _. Qed.

Lemma qsort_permutation (stacks : list FlatStack.t) : qsort stacks ≡ₚ stacks.
Proof. apply merge_sort_Permutation. Qed.

(** Sorting, then folding: the report is in order for whatever records
    the flattener produced, as long as there is one. *)
Lemma qsort_fold_sorted (stacks : list FlatStack.t) :
  stacks <> [] ->
  exists out n,
    fold_stacks (qsort stacks) (length stacks) = Done (out, n) /\
    adjacent_sorted (printed out n).
Proof.
  intros Hne. rewrite <- (Permutation_length (qsort_permutation stacks)).
  destruct (fold_printed_sorted (qsort stacks)) as (out & n & H1 & H2).
  - intros H. apply Hne. apply Permutation_nil_r. by rewrite <- H, qsort_permutation.
  - apply qsort_sorted.
  - exists out, n. split; [done | by apply Sorted_adjacent].
Qed.

(** ** The entry point *)

Lemma reduce_overhead_child (f : StackFrame) :
  child (reduce_overhead f) = map reduce_overhead (child f).
Proof. by destruct f. Qed.

Lemma calculate_child_time_child (f : StackFrame) :
  child (calculate_child_time f) = map calculate_child_time (child f).
Proof. by rewrite calculate_child_time_unfold. Qed.

(** C8.  When [premake_init] fails the hook is never installed and the
    tree stays empty: [fold_stacks] is called with [nstacks = 0], starts
    reading at index 1 of an empty array, and [main] does not get as far
    as returning the result of the host. *)
Theorem main_empty_profile (P : Platform) :
  main P (mkExecution true (OKAY P + 1) [] 0 false) = Fault OutOfBounds.
Proof.
  unfold main. cbn [premake_init sym_initialize].
  replace (OKAY P + 1 =? OKAY P)%Z with false
    by (symmetry; apply Z.eqb_neq; lia).
  reflexivity.
Qed.

(** * Further properties *)

(** ** The classifier *)

Lemma after_last_slash_split (s : string) :
  match after_last_slash s with
  | Some t => contains "/" t = false /\ exists d, s = (d +:+ "/") +:+ t
  | None => contains "/" s = false
  end.
Proof.
  induction s as [|c s IH]; simpl; [done|].
  destruct (after_last_slash s) as [t|].
  - destruct IH as [Ht (d & ->)]. split; [done|]. by exists (String c d).
  - destruct (Ascii.eqb c "/") eqn:E.
    + apply Ascii.eqb_eq in E. subst c. split; [done|]. by exists "".
    + simpl. by rewrite IH.
Qed.

(** The text of an anonymous location is the source name without its
    directories, a colon and the line number: the source name splits into
    a part that is empty or ends with a slash and a part without any
    slash, and only the latter is kept. *)
Theorem anonymous_name_basename (a : lua_Debug.t) :
  exists dir base,
    lua_Debug.source a = dir +:+ base /\
    (dir = "" \/ exists d, dir = d +:+ "/") /\
    contains "/" base = false /\
    anonymous_name a = base +:+ ":" +:+ fmt_d (lua_Debug.currentline a).
Proof.
  unfold anonymous_name.
  pose proof (after_last_slash_split (lua_Debug.source a)) as H.
  destruct (after_last_slash (lua_Debug.source a)) as [t|].
  - destruct H as [Ht (d & Hs)]. exists (d +:+ "/"), t.
    split_and!; [done | right; by exists d | done | done].
  - exists "", (lua_Debug.source a). split_and!; [done | by left | done | done].
Qed.

Lemma after_last_slash_none (s : string) :
  contains "/" s = false -> after_last_slash s = None.
Proof.
  induction s as [|c s IH]; simpl; [done|].
  intros [Hc Hs]%orb_false_iff. by rewrite (IH Hs), Hc.
Qed.

Lemma after_last_slash_app (d base : string) :
  contains "/" base = false ->
  after_last_slash ((d +:+ "/") +:+ base) = Some base.
Proof.
  intros Hb. induction d as [|c d IH].
  - change (("" +:+ "/") +:+ base) with (String "/" base). simpl.
    by rewrite (after_last_slash_none _ Hb).
  - change ((String c d +:+ "/") +:+ base) with (String c ((d +:+ "/") +:+ base)).
    simpl. by rewrite IH.
Qed.

Lemma fmt_d_nonempty (z : Z) : 1 <= strlen (fmt_d z).
Proof.
  unfold fmt_d. destruct (Z.to_int z) as [d|d]; destruct d; simpl; lia.
Qed.

(** A call of an anonymous function whose source name, after its last
    slash, has [LUA_IDSIZE + 10] characters or more: with the colon, at
    least one digit of the line number and the terminating zero, the
    text does not fit in the buffer of [LUA_IDSIZE + 11 + 1] bytes it is
    formatted into, and the hook writes outside it, in every state and
    whatever the line. *)
Theorem long_source_overflows (n : Notification) (st : Profiler)
    (dir base : string) :
  lua_Debug.event (ar n) = LUA_HOOKCALL ->
  lua_Debug.what (ar n) = "Lua" ->
  match lua_Debug.name (ar n) with
  | Some (_, s) => first_char s = "?"%char
  | None => True
  end ->
  lua_Debug.source (ar n) = dir +:+ base ->
  (dir = "" \/ exists d, dir = d +:+ "/") ->
  contains "/" base = false ->
  LUA_IDSIZE + 10 <= strlen base ->
  callhook n st = Fault OutOfBounds.
Proof.
  intros Hev Hwhat Hname Hsrc Hdir Hbase Hlen.
  assert (Htext : anonymous_name (ar n)
                  = base +:+ ":" +:+ fmt_d (lua_Debug.currentline (ar n))).
  { unfold anonymous_name. rewrite Hsrc.
    destruct Hdir as [->|[d ->]].
    - change ("" +:+ base) with base. by rewrite (after_last_slash_none _ Hbase).
    - by rewrite (after_last_slash_app _ _ Hbase). }
  assert (Hbuf : sprintf (LUA_IDSIZE + 11 + 1) (anonymous_name (ar n))
                 = Fault OutOfBounds).
  { apply sprintf_overflow. rewrite Htext, !strlen_app.
    pose proof (fmt_d_nonempty (lua_Debug.currentline (ar n))).
    change (strlen ":") with 1. lia. }
  unfold callhook, hook_enter, findChildInCurrent, parseCodeLocation.
  rewrite Hev, Hwhat, Hbuf.
  destruct (lua_Debug.name (ar n)) as [[p s]|]; [|done].
  rewrite Hname. done.
Qed.

Lemma long_source_overflows_witness :
  callhook
    (enter_anonymous
       "@src/0123456789012345678901234567890123456789012345678901234567890123456.lua"
       12 10 11)
    profiler_init
  = Fault OutOfBounds.
Proof.
  apply (long_source_overflows _ _ "@src/"
           "0123456789012345678901234567890123456789012345678901234567890123456.lua");
    try reflexivity.
  - right. by exists "@src".
  - vm_compute. lia.
Defined.

(** ** The hook on a stream of notifications *)

Lemma run_app (ns1 ns2 : list Notification) (st : Profiler) :
  run (ns1 ++ ns2) st = let* st1 := run ns1 st in run ns2 st1.
Proof.
  revert st. induction ns1 as [|n ns1 IH]; intros st; [done|].
  cbn [app run]. destruct (callhook n st) as [st1|f]; cbn [bind]; [apply IH | done].
Qed.

(** A return event that arrives when every call has returned makes the
    hook go through the NULL parent of the root: the run faults there,
    whatever follows. *)
Theorem unmatched_return_faults (ns rest : list Notification) (n : Notification)
    (st : Profiler) :
  run ns profiler_init = Done st ->
  parents st = [] ->
  is_return n = true ->
  run (ns ++ n :: rest) profiler_init = Fault NullDereference.
Proof.
  intros Hrun Hpar Hret. rewrite run_app, Hrun. cbn [bind run].
  unfold callhook, is_return in *.
  destruct (lua_Debug.event (ar n)); try done;
    unfold hook_leave; by rewrite Hpar.
Qed.

Lemma unmatched_return_faults_witness :
  run (one_call ++ [leave 30 31]) profiler_init = Fault NullDereference.
Proof.
  eapply (unmatched_return_faults one_call [] (leave 30 31));
    [vm_compute; reflexivity | reflexivity | reflexivity].
Defined.

(** The number of links above the cursor is the number of calls that
    have not returned. *)
Theorem cursor_depth (ns : list Notification) (st st' : Profiler) :
  run ns st = Done st' ->
  length (parents st') + returns ns = length (parents st) + calls ns.
Proof.
  revert st. induction ns as [|n ns IH]; intros st Hrun.
  - injection Hrun as <-. unfold returns, calls. simpl. lia.
  - cbn [run] in Hrun.
    destruct (callhook n st) as [st1|] eqn:Hc; [|done]. cbn [bind] in Hrun.
    specialize (IH st1 Hrun). unfold returns, calls in *.
    rewrite !filter_cons. set (R := filter is_return ns) in *.
    set (C := filter is_call ns) in *. unfold callhook in Hc.
    unfold is_call, is_return. destruct (lua_Debug.event (ar n)); simpl.
    + unfold hook_enter in Hc.
      destruct (findChildInCurrent (ar n) st) as [[[i c] st2]|] eqn:Hf; [|done].
      destruct (findChildInCurrent_cases _ _ _ _ _ Hf) as (cl & _ & Hp & _).
      injection Hc as <-. simpl in IH. rewrite Hp in IH. lia.
    + unfold hook_leave in Hc. destruct (parents st) as [|c up]; [done|].
      injection Hc as <-. simpl in *. lia.
    + injection Hc as <-. lia.
    + injection Hc as <-. lia.
    + unfold hook_leave in Hc. destruct (parents st) as [|c up]; [done|].
      injection Hc as <-. simpl in *. lia.
Qed.

Lemma cursor_depth_witness :
  exists st',
    run same_call_twice profiler_init = Done st' /\
    length (parents st') + returns same_call_twice
    = length (parents profiler_init) + calls same_call_twice.
Proof.
  eexists. split; [vm_compute; reflexivity|].
  apply (cursor_depth same_call_twice profiler_init). vm_compute. reflexivity.
Defined.

(** A call followed at once by its return: the return never faults and
    brings the cursor back to the frame the call came from, with its
    code, start and elapsed time as before and the cost of the return
    added to its overhead; the frame that was entered is stored among its
    children, at most one more than before, with the time between the
    entry and the return added to its elapsed time. *)
Theorem enter_leave_round_trip (n1 n2 : Notification) (st st1 : Profiler) :
  hook_enter n1 st = Done st1 ->
  exists st2 i,
    hook_leave n2 st1 = Done st2 /\
    parents st2 = parents st /\
    code (current_frame st2) = code (current_frame st) /\
    start (current_frame st2) = start (current_frame st) /\
    elapsed (current_frame st2) = elapsed (current_frame st) /\
    overhead (current_frame st2)
    = wrap64 (overhead (current_frame st) + wrap64 (tsc1 n2 - tsc0 n2)) /\
    length (child (current_frame st)) <= length (child (current_frame st2))
      <= S (length (child (current_frame st))) /\
    child (current_frame st2) !! i
    = Some (set_elapsed
              (wrap64 (elapsed (current_frame st1)
                       + wrap64 (tsc0 n2 - tsc0 n1)))
              (current_frame st1)).
Proof.
  unfold hook_enter.
  destruct (findChildInCurrent (ar n1) st) as [[[i c] st']|] eqn:Hf; [|done].
  cbn [bind]. intros [= <-].
  destruct (findChildInCurrent_cases _ _ _ _ _ Hf) as (cl & _ & Hpar & _ & Hi & Hcase).
  unfold hook_leave. cbn [parents current_frame heap]. eexists _, i.
  split; [reflexivity|]. cbn [parents current_frame].
  unfold plug. cbn [c_parent c_slot code start elapsed overhead child
                    set_overhead set_child set_elapsed set_start].
  assert (Hlt : i < length (child (current_frame st'))) by by eapply lookup_lt_Some.
  rewrite length_insert, list_lookup_insert_eq by done.
  split; [done|].
  destruct Hcase as [[-> _]|(-> & _ & _ & _)]; cbn; split_and!; try done; lia.
Qed.

Lemma enter_leave_round_trip_witness :
  exists st2 i,
    hook_leave (leave 20 23) (mkProfiler
      (set_overhead (wrap64 (12 - 10)) (set_start 10
         (set_code (mkCodeLocation CLT_Main NULL) zero_frame)))
      [mkCrumb (set_child [set_code (mkCodeLocation CLT_Main NULL) zero_frame]
                  zero_frame) 0] []) = Done st2 /\
    child (current_frame st2) !! i
    = Some (set_elapsed (wrap64 (0 + wrap64 (20 - 10)))
              (set_overhead (wrap64 (12 - 10)) (set_start 10
                 (set_code (mkCodeLocation CLT_Main NULL) zero_frame)))).
Proof.
  destruct (enter_leave_round_trip (enter_main 10 12) (leave 20 23)
              profiler_init _ eq_refl)
    as (st2 & i & H1 & _ & _ & _ & _ & _ & _ & H2).
  exists st2, i. split; [exact H1 | exact H2].
Defined.

(** ** One frame for each call site *)

Lemma Forall_subframes (Q : StackFrame -> Prop) (f : StackFrame) :
  Forall Q (subframes f) <-> Q f /\ Forall (fun c => Forall Q (subframes c)) (child f).
Proof.
  destruct f as [s e ch c ct o]. cbn [subframes child].
  rewrite Forall_cons. apply and_iff_compat_l.
  induction ch as [|x ch IH]; simpl; [by rewrite !Forall_nil|].
  by rewrite Forall_app, Forall_cons, IH.
Qed.

Lemma paths_distinct_siblings (f : StackFrame) :
  NoDup (tree_paths f) ->
  Forall (fun g => NoDup (code <$> child g)) (subframes f).
Proof.
  induction f as [s e ch c ct o IH] using StackFrame_ind.
  rewrite tree_paths_unfold. cbn [code child]. intros [_ Hnd]%NoDup_cons.
  apply NoDup_fmap_1 in Hnd. apply Forall_subframes. cbn [child].
  induction IH as [|k rest Hk _ IHrest]; [split; constructor|].
  rewrite bind_cons in Hnd. apply NoDup_app in Hnd as (Hnk & Hdis & Hrest).
  destruct (IHrest Hrest) as [Hcodes Hsub]. split.
  - rewrite fmap_cons. apply NoDup_cons. split; [|done].
    intros (k' & Hc & Hk')%list_elem_of_fmap.
    apply (Hdis [code k]); [apply tree_paths_self|].
    apply list_elem_of_bind. exists k'. split; [|done].
    rewrite Hc. apply tree_paths_self.
  - apply Forall_cons. split; [by apply Hk | done].
Qed.

(** Whatever the notifications, no frame of the tree has two children
    with the same code: a call site reached again from the same frame
    never gets a second child. *)
Theorem siblings_distinct (ns : list Notification) (st : Profiler) :
  run ns profiler_init = Done st ->
  Forall (fun f => NoDup (code <$> child f)) (subframes (root_frame st)).
Proof.
  intros Hrun. apply paths_distinct_siblings.
  by destruct (run_sites ns profiler_init st [] sites_ok_init Hrun) as (_ & H & _).
Qed.

Lemma siblings_distinct_witness :
  exists st,
    run anonymous_twice profiler_init = Done st /\
    Forall (fun f => NoDup (code <$> child f)) (subframes (root_frame st)).
Proof.
  eexists. split; [vm_compute; reflexivity|].
  apply (siblings_distinct anonymous_twice). vm_compute. reflexivity.
Defined.

(** ** The two passes over the tree *)

Lemma subframes_unfold (f : StackFrame) :
  subframes f = f :: flat_map subframes (child f).
Proof. by destruct f. Qed.

Lemma subframes_pass {A} (pass : StackFrame -> StackFrame)
    (g g' : StackFrame -> A) :
  (forall x, child (pass x) = map pass (child x)) ->
  (forall x, g (pass x) = g' x) ->
  forall f, map g (subframes (pass f)) = map g' (subframes f).
Proof.
  intros Hch Hg. induction f as [s e ch c ct o IH] using StackFrame_ind.
  rewrite (subframes_unfold (pass _)), (subframes_unfold (mkStackFrame _ _ _ _ _ _)).
  rewrite Hch. cbn [child map]. rewrite Hg. f_equal.
  induction IH as [|x rest Hx _ IHrest]; [done|].
  cbn [map flat_map]. by rewrite !map_app, Hx, IHrest.
Qed.

Lemma tree_paths_pass (pass : StackFrame -> StackFrame) :
  (forall x, child (pass x) = map pass (child x)) ->
  (forall x, code (pass x) = code x) ->
  forall f, tree_paths (pass f) = tree_paths f.
Proof.
  intros Hch Hc. induction f as [s e ch c ct o IH] using StackFrame_ind.
  rewrite (tree_paths_unfold (pass _)), (tree_paths_unfold (mkStackFrame _ _ _ _ _ _)).
  rewrite Hch, Hc. cbn [child code]. do 2 f_equal.
  induction IH as [|x rest Hx _ IHrest]; [done|].
  cbn [map]. by rewrite !bind_cons, Hx, IHrest.
Qed.

Lemma calculate_child_time_fields (f : StackFrame) :
  start (calculate_child_time f) = start f /\
  code (calculate_child_time f) = code f /\
  overhead (calculate_child_time f) = overhead f.
Proof. by rewrite calculate_child_time_unfold. Qed.

(** [count_nodes] counts the frames of a tree. *)
Theorem count_nodes_subframes (f : StackFrame) :
  count_nodes f = length (subframes f).
Proof.
  induction f as [s e ch c ct o IH] using StackFrame_ind.
  rewrite count_nodes_unfold, subframes_unfold. cbn [child length]. f_equal.
  induction IH as [|x rest Hx _ IHrest]; [done|].
  rewrite count_chain_cons. cbn [flat_map]. rewrite length_app. lia.
Qed.

(** [reduce_overhead] touches nothing but [elapsed]: the tree keeps its
    frames, at the same places, with the same code, start, children time
    and overhead. *)
Theorem reduce_overhead_only_elapsed (f : StackFrame) :
  tree_paths (reduce_overhead f) = tree_paths f /\
  map (fun n => (start n, code n, children_time n, overhead n))
      (subframes (reduce_overhead f))
  = map (fun n => (start n, code n, children_time n, overhead n)) (subframes f).
Proof.
  split.
  - apply tree_paths_pass; [apply reduce_overhead_child | by intros []].
  - apply subframes_pass; [apply reduce_overhead_child | by intros []].
Qed.

(** [calculate_child_time] keeps the frames of the tree at their places,
    with their code, start and overhead; in every frame what it leaves in
    [elapsed] and [children_time] adds up, modulo 2^64, to the elapsed
    time the frame had before. *)
Theorem calculate_child_time_round_trip (f : StackFrame) :
  tree_paths (calculate_child_time f) = tree_paths f /\
  map (fun n => (start n, code n, overhead n)) (subframes (calculate_child_time f))
  = map (fun n => (start n, code n, overhead n)) (subframes f) /\
  map (fun n => wrap64 (elapsed n + children_time n))
      (subframes (calculate_child_time f))
  = map (fun n => wrap64 (elapsed n)) (subframes f).
Proof.
  split_and!.
  - apply tree_paths_pass; [apply calculate_child_time_child|].
    intros x. apply calculate_child_time_fields.
  - apply subframes_pass; [apply calculate_child_time_child|].
    intros x. destruct (calculate_child_time_fields x) as (-> & -> & ->). done.
  - apply subframes_pass; [apply calculate_child_time_child|].
    intros x. rewrite calculate_child_time_unfold. cbn [elapsed children_time].
    unfold wrap64. rewrite Zplus_mod_idemp_l. f_equal. lia.
Qed.

(** ** The symbol cache *)

(** [resovle] returns only when the cache already holds the address, and
    then with the name the cache holds and the resolver as it was: no
    resolution that returns has called [SymFromAddr] or added an
    entry. *)
Theorem resovle_returns_on_hit_only (P : Platform) (a : pointer)
    (r r' : Resolver) (n : string) :
  resovle P a r = Done (n, r') <->
  cache_find a (g_resolved r) = Some n /\ r' = r.
Proof.
  destruct (cache_find a (g_resolved r)) as [m|] eqn:Hc.
  - unfold resovle. rewrite Hc. split.
    + by intros [= -> ->].
    + by intros [[= ->] ->].
  - rewrite (resovle_miss _ _ _ Hc). split; [done | by intros [? _]].
Qed.

(** ** The flattener *)

(** [flatten_stacks] returns only for a root without children, with an
    empty array and the resolver untouched; with any frame below the
    root, the first record it formats does not fit in its buffer. *)
Theorem flatten_stacks_outcome (P : Platform) (h : Heap) (root : StackFrame)
    (r : Resolver) :
  flatten_stacks P h root r
  = match child root with
    | [] => Done ([], 0, r)
    | _ :: _ => Fault OutOfBounds
    end.
Proof.
  unfold flatten_stacks, count_stacks.
  destruct (child root) as [|k rest]; [done|].
  cbn [chain_iter]. by rewrite append_children_fault.
Qed.

(** ** The folder at its bounds *)

Lemma fold_loop_zero (fuel : nat) :
  forall stacks r w, 0 < r -> fold_loop fuel stacks 0 r w = Fault OutOfBounds.
Proof.
  induction fuel as [|fuel IH]; intros stacks r w Hr; cbn [fold_loop];
    replace (r =? 0)%nat with false by (symmetry; apply Nat.eqb_neq; lia);
    [done|].
  destruct (stacks !! r); [|done]. destruct (stacks !! w); [|done].
  destruct (_ =? _)%Z; [apply IH; lia|].
  destruct (_ <? _)%nat; [apply IH; lia | done].
Qed.

(** Called with a count of zero, [fold_stacks] reads outside the array,
    whatever the array: the loop starts at index 1 and stops only when
    its index equals the count. *)
Theorem fold_stacks_zero (stacks : list FlatStack.t) :
  fold_stacks stacks 0 = Fault OutOfBounds.
Proof. apply fold_loop_zero. lia. Qed.

Lemma total_fold_acc (cur : FlatStack.t) (rest : list FlatStack.t) :
  wrap64 (total_elapsed (fold_acc cur rest))
  = wrap64 (FlatStack.elapsed cur + total_elapsed rest).
Proof.
  revert cur. induction rest as [|rd rest IH]; intros cur; cbn [fold_acc].
  - done.
  - destruct (_ =? _)%Z.
    + rewrite IH. cbn [FlatStack.elapsed total_elapsed foldr]. unfold wrap64.
      rewrite Zplus_mod_idemp_l. fold (total_elapsed rest). f_equal. lia.
    + cbn [total_elapsed foldr]. fold (total_elapsed (fold_acc rd rest)).
      fold (total_elapsed rest). unfold wrap64 in *.
      rewrite <- Zplus_mod_idemp_r, IH, Zplus_mod_idemp_r. done.
Qed.

(** Folding loses no time: the records the array starts with after the
    fold, up to the index returned, have the same total elapsed time,
    modulo 2^64, as the records given. *)
Theorem fold_stacks_total (stacks : list FlatStack.t) :
  stacks <> [] ->
  exists out n,
    fold_stacks stacks (length stacks) = Done (out, n) /\
    wrap64 (total_elapsed (take (S n) out)) = wrap64 (total_elapsed stacks).
Proof.
  intros Hne. destruct (fold_stacks_folded stacks Hne) as (out & H1 & H2 & _).
  exists out, (length (folded stacks) - 1). split; [done|].
  destruct stacks as [|x rest]; [done|]. cbn [folded] in *.
  pose proof (fold_acc_nonempty x rest).
  replace (S (length (fold_acc x rest) - 1)) with (length (fold_acc x rest)) by lia.
  rewrite H2. apply total_fold_acc.
Qed.

Lemma fold_stacks_total_witness :
  exists out n,
    fold_stacks anonymous_stacks (length anonymous_stacks) = Done (out, n) /\
    wrap64 (total_elapsed (take (S n) out))
    = wrap64 (total_elapsed anonymous_stacks).
Proof. apply (fold_stacks_total anonymous_stacks). done. Defined.

(** ** The comparison of records *)

Lemma strcmp_sign (a b : string) :
  strcmp a b = (-1)%Z \/ strcmp a b = 0%Z \/ strcmp a b = 1%Z.
Proof.
  revert b. induction a as [|c a IH]; intros [|d b]; simpl; try tauto.
  destruct (_ <? _)%Z; [tauto|]. destruct (_ <? _)%Z; [tauto|]. apply IH.
Qed.

Lemma strcmp_antisym (a b : string) : strcmp b a = (- strcmp a b)%Z.
Proof.
  revert b. induction a as [|c a IH]; intros [|d b]; simpl; try done.
  destruct (Z.ltb_spec (byte_of c) (byte_of d)),
           (Z.ltb_spec (byte_of d) (byte_of c)); try lia. apply IH.
Qed.

Lemma strcmp_lt_trans (a b c : string) :
  (strcmp a b < 0)%Z -> (strcmp b c < 0)%Z -> (strcmp a c < 0)%Z.
Proof.
  revert b c. induction a as [|x a IH]; intros [|y b] [|z c]; simpl; try lia.
  destruct (Z.ltb_spec (byte_of x) (byte_of y)),
           (Z.ltb_spec (byte_of y) (byte_of x)),
           (Z.ltb_spec (byte_of y) (byte_of z)),
           (Z.ltb_spec (byte_of z) (byte_of y)),
           (Z.ltb_spec (byte_of x) (byte_of z)),
           (Z.ltb_spec (byte_of z) (byte_of x)); try lia.
  apply IH.
Qed.

(** [qsort_compare_stacks] is a comparison [qsort] can sort with: it is
    zero exactly on records of the same name, swapping its arguments
    changes the sign of its result, and it is transitive. *)
Theorem qsort_compare_stacks_order (a b c : FlatStack.t) :
  (qsort_compare_stacks a b = 0%Z <-> FlatStack.name a = FlatStack.name b) /\
  qsort_compare_stacks b a = (- qsort_compare_stacks a b)%Z /\
  ((qsort_compare_stacks a b <= 0)%Z -> (qsort_compare_stacks b c <= 0)%Z ->
   (qsort_compare_stacks a c <= 0)%Z).
Proof.
  unfold qsort_compare_stacks. split_and!.
  - split; [apply strcmp_eq | intros ->; apply strcmp_refl].
  - apply strcmp_antisym.
  - intros H1 H2.
    destruct (Z.eq_dec (strcmp (FlatStack.name a) (FlatStack.name b)) 0%Z) as [E|E].
    { apply strcmp_eq in E. by rewrite E. }
    destruct (Z.eq_dec (strcmp (FlatStack.name b) (FlatStack.name c)) 0%Z) as [E'|E'].
    { apply strcmp_eq in E'. by rewrite <- E'. }
    apply Z.lt_le_incl. apply (strcmp_lt_trans _ (FlatStack.name b)); lia.
Qed.

Lemma qsort_compare_stacks_order_witness :
  (qsort_compare_stacks (FlatStack.mk "root;C:a" 1) (FlatStack.mk "root;LUA:z" 3)
   <= 0)%Z.
Proof.
  destruct (qsort_compare_stacks_order (FlatStack.mk "root;C:a" 1)
              (FlatStack.mk "root;LUA:b" 2) (FlatStack.mk "root;LUA:z" 3))
    as (_ & _ & H).
  apply H; by vm_compute.
Defined.

(** ** One record for each path *)

Lemma fold_acc_names (cur : FlatStack.t) (rest : list FlatStack.t) (s : string) :
  s ∈ FlatStack.name <$> fold_acc cur rest
  <-> s ∈ FlatStack.name <$> cur :: rest.
Proof.
  revert cur. induction rest as [|rd rest IH]; intros cur; cbn [fold_acc]; [done|].
  destruct (strcmp (FlatStack.name rd) (FlatStack.name cur) =? 0)%Z eqn:E.
  - apply Z.eqb_eq, strcmp_eq in E. rewrite IH, !fmap_cons, !elem_of_cons.
    cbn [FlatStack.name]. rewrite E. tauto.
  - rewrite (fmap_cons _ cur (fold_acc _ _)), elem_of_cons, IH.
    rewrite !fmap_cons, !elem_of_cons. tauto.
Qed.

Lemma fold_acc_strict (cur : FlatStack.t) (rest : list FlatStack.t) :
  Sorted stack_le (cur :: rest) -> Sorted stack_lt (fold_acc cur rest).
Proof.
  revert cur. induction rest as [|rd rest IH]; intros cur Hs; cbn [fold_acc].
  - by repeat constructor.
  - apply Sorted_inv in Hs as [Hs Hhd]. apply HdRel_inv in Hhd.
    destruct (strcmp (FlatStack.name rd) (FlatStack.name cur) =? 0)%Z eqn:E.
    + apply Z.eqb_eq, strcmp_eq in E. apply IH.
      apply Sorted_inv in Hs as [Hs Hhd2]. constructor; [done|].
      destruct Hhd2 as [|b l Hb]; constructor.
      unfold stack_le, qsort_compare_stacks in *. simpl. by rewrite <- E.
    + constructor; [by apply IH|].
      destruct (fold_acc_head rd rest) as (e & tl & ->). constructor.
      apply Z.eqb_neq in E. rewrite strcmp_antisym in E.
      unfold stack_lt, stack_le, qsort_compare_stacks in *. simpl. lia.
Qed.

Local Instance stack_lt_trans : Transitive stack_lt.
Proof.
  intros a b c. unfold stack_lt, qsort_compare_stacks. apply strcmp_lt_trans.
Qed.

Lemma strict_names_distinct (l : list FlatStack.t) :
  Sorted stack_lt l -> NoDup (FlatStack.name <$> l).
Proof.
  intros Hs. apply Sorted_StronglySorted in Hs; [|apply _].
  induction Hs as [|x l Hs IH Hall]; [constructor|].
  rewrite fmap_cons. apply NoDup_cons. split; [|done].
  intros (y & Hxy & Hy)%list_elem_of_fmap.
  eapply Forall_forall in Hall; [|done].
  unfold stack_lt, qsort_compare_stacks in Hall.
  rewrite Hxy, strcmp_refl in Hall. lia.
Qed.

(** After the fold of a sorted array, the records up to the index
    returned hold every path of the array, each one once. *)
Theorem fold_stacks_one_per_path (stacks : list FlatStack.t) :
  stacks <> [] ->
  Sorted stack_le stacks ->
  exists out n,
    fold_stacks stacks (length stacks) = Done (out, n) /\
    NoDup (FlatStack.name <$> take (S n) out) /\
    forall s, s ∈ FlatStack.name <$> take (S n) out
              <-> s ∈ FlatStack.name <$> stacks.
Proof.
  intros Hne Hs. destruct (fold_stacks_folded stacks Hne) as (out & H1 & H2 & _).
  exists out, (length (folded stacks) - 1). split; [done|].
  destruct stacks as [|x rest]; [done|]. cbn [folded] in *.
  pose proof (fold_acc_nonempty x rest).
  replace (S (length (fold_acc x rest) - 1)) with (length (fold_acc x rest)) by lia.
  rewrite H2. split.
  - by apply strict_names_distinct, fold_acc_strict.
  - intros s. apply fold_acc_names.
Qed.

Lemma fold_stacks_one_per_path_witness :
  exists out n,
    fold_stacks anonymous_stacks (length anonymous_stacks) = Done (out, n) /\
    NoDup (FlatStack.name <$> take (S n) out).
Proof.
  destruct (fold_stacks_one_per_path anonymous_stacks) as (out & n & H1 & H2 & _).
  - done.
  - unfold anonymous_stacks. repeat constructor; unfold stack_le; by vm_compute.
  - by exists out, n.
Defined.

(** ** The report writer *)

Lemma print_loop_text (stacks : list FlatStack.t) (todo : nat) :
  forall ii,
    ii <= length stacks ->
    print_loop stacks ii todo
    = if decide (ii + todo <= length stacks)
      then Done (report_text (take todo (drop ii stacks)))
      else Fault OutOfBounds.
Proof.
  induction todo as [|todo IH]; intros ii Hii; cbn [print_loop].
  - rewrite decide_True by lia. done.
  - destruct (stacks !! ii) as [s|] eqn:Hs.
    + apply lookup_lt_Some in Hs as Hlt. rewrite IH by lia.
      rewrite (drop_S _ _ _ Hs). cbn [take report_text foldr].
      destruct (decide (S ii + todo <= length stacks)).
      * rewrite decide_True by lia. done.
      * rewrite decide_False by lia. done.
    + apply lookup_ge_None in Hs. rewrite decide_False by lia. done.
Qed.

(** When the destination opens, [print_stacks] writes the lines of the
    first [nstacks] records, in order, and nothing else; a count beyond
    the array makes it read outside the array. *)
Theorem print_stacks_bounds (stacks : list FlatStack.t) (nstacks : nat) :
  print_stacks true stacks nstacks
  = if decide (nstacks <= length stacks)
    then Done (Some (report_text (take nstacks stacks)))
    else Fault OutOfBounds.
Proof.
  unfold print_stacks. rewrite print_loop_text, drop_0 by lia. simpl.
  by destruct (decide (nstacks <= length stacks)).
Qed.

(** The count [fold_stacks] returns never exceeds the array, whose
    length it keeps: printing after a fold does not fault. *)
Theorem fold_then_print (stacks : list FlatStack.t) (open : bool) :
  stacks <> [] ->
  exists out n,
    fold_stacks stacks (length stacks) = Done (out, n) /\
    length out = length stacks /\ n < length stacks /\
    print_stacks open out n
    = Done (if open then Some (report_text (take n out)) else None).
Proof.
  intros Hne. destruct (fold_stacks_folded stacks Hne) as (out & H1 & H2 & H3).
  exists out, (length (folded stacks) - 1). split; [done|]. split; [done|].
  assert (length (folded stacks) <= length stacks).
  { rewrite <- H2, length_take, H3. lia. }
  assert (0 < length stacks) by (destruct stacks; [done | simpl; lia]).
  split; [lia|]. destruct open; [|done].
  unfold print_stacks. rewrite print_loop_text, drop_0 by lia.
  rewrite decide_True by lia. done.
Qed.

Lemma fold_then_print_witness :
  exists out n,
    fold_stacks sample_stacks (length sample_stacks) = Done (out, n) /\
    length out = length sample_stacks /\ n < length sample_stacks /\
    print_stacks true out n = Done (Some (report_text (take n out))).
Proof. apply (fold_then_print sample_stacks true). discriminate. Defined.

(** ** The entry point, case by case *)

(** [main] never gets as far as [return z].  When the hook faults, so
    does [main].  Otherwise, when a frame was recorded, the flattener
    writes outside the buffer of its first record; and when none was, in
    particular when [premake_init] fails, the fold reads outside an
    empty array. *)
Theorem main_outcome (P : Platform) (e : Execution) :
  main P e
  = Fault (if (premake_init e =? OKAY P)%Z then
             match run (notifications e) profiler_init with
             | Fault f => f
             | Done _ => OutOfBounds
             end
           else OutOfBounds).
Proof.
  unfold main. destruct (premake_init e =? OKAY P)%Z; [|done].
  destruct (run (notifications e) profiler_init) as [st|f]; [|done].
  cbn [bind]. unfold flatten_stacks, count_stacks.
  rewrite calculate_child_time_child, reduce_overhead_child.
  destruct (child (root_frame st)) as [|k rest]; [done|].
  cbn [map chain_iter]. by rewrite append_children_fault.
Qed.

(** ** The time of the children fits in the time of their parent *)

Lemma all_funded_unfold (T : Z) (f : StackFrame) :
  all_funded T f <-> funded T f /\ Forall (all_funded T) (child f).
Proof. apply Forall_subframes. Qed.

Lemma all_funded_mono (T T' : Z) (f : StackFrame) :
  (T <= T')%Z -> all_funded T f -> all_funded T' f.
Proof.
  intros H Hf. eapply Forall_impl; [exact Hf|]. intros x. unfold funded. lia.
Qed.

Lemma Forall_all_funded_mono (T T' : Z) (l : list StackFrame) :
  (T <= T')%Z -> Forall (all_funded T) l -> Forall (all_funded T') l.
Proof.
  intros H Hl. eapply Forall_impl; [exact Hl|]. intros x. by apply all_funded_mono.
Qed.

Lemma sum_elapsed_nonneg (T : Z) (l : list StackFrame) :
  Forall (all_funded T) l -> (0 <= sum_elapsed l)%Z.
Proof.
  induction 1 as [|x l Hx _ IH]; simpl; [lia|].
  apply all_funded_unfold in Hx as [(_ & _ & ? & _) _]. lia.
Qed.

Lemma sum_elapsed_insert (l : list StackFrame) (i : nat) (x y : StackFrame) :
  l !! i = Some x ->
  sum_elapsed (<[i := y]> l) = (sum_elapsed l - elapsed x + elapsed y)%Z.
Proof.
  revert i. induction l as [|z l IH]; intros [|i] H; simplify_eq/=; [lia|].
  rewrite (IH _ H). lia.
Qed.

Lemma chain_ok_mono (T T' : Z) (cs : list Crumb) :
  (T <= T')%Z -> forall b, chain_ok T b cs -> chain_ok T' b cs.
Proof.
  intros H. induction cs as [|c cs IH]; intros b; [done|].
  intros (H1 & H2 & H3 & H4). split_and!; [|done| |by apply IH].
  - by eapply Forall_all_funded_mono.
  - destruct cs; [done|]. destruct H3. split; [done | lia].
Qed.

Lemma chain_ok_below (T : Z) (cs : list Crumb) (b b' : StackFrame) :
  elapsed b' = elapsed b -> start b' = start b ->
  chain_ok T b cs -> chain_ok T b' cs.
Proof.
  intros He Hs. destruct cs as [|c cs]; [done|].
  intros (H1 & H2 & H3 & H4). split_and!; [done| | |done].
  - by rewrite He.
  - destruct cs; [done|]. unfold lending in *. by rewrite Hs.
Qed.

Lemma zero_frame_funded (T : Z) (cl : CodeLocation) :
  (0 <= T)%Z -> all_funded T (set_code cl zero_frame).
Proof.
  intros H. apply all_funded_unfold. split; [|constructor].
  unfold funded. simpl. lia.
Qed.

Lemma hook_enter_budget (T : Z) (n : Notification) (st st' : Profiler) :
  (0 <= T)%Z ->
  (T <= tsc0 n /\ tsc0 n <= tsc1 n /\ tsc1 n < 2 ^ 64)%Z ->
  budget_ok T st ->
  hook_enter n st = Done st' ->
  budget_ok (tsc1 n) st'.
Proof.
  intros H0 (Ht0 & Ht1 & Ht2) (Hch & Hsp & Hchain). unfold hook_enter.
  destruct (findChildInCurrent (ar n) st) as [[[i c] st1]|] eqn:Hf; [|done].
  cbn [bind]. intros [= <-].
  destruct (findChildInCurrent_cases _ _ _ _ _ Hf)
    as (cl & _ & Hpar & _ & Hi & Hcase).
  set (cur := current_frame st) in *. set (cur1 := current_frame st1) in *.
  assert (Hcur1 : start cur1 = start cur /\ elapsed cur1 = elapsed cur /\
                  overhead cur1 = overhead cur /\
                  sum_elapsed (child cur1) = sum_elapsed (child cur) /\
                  Forall (all_funded T) (child cur1)).
  { destruct Hcase as [[-> _]|(-> & _ & -> & _)]; [done|].
    split_and!; try done. cbn [child set_child].
    apply Forall_cons. split; [by apply zero_frame_funded | done]. }
  destruct Hcur1 as (Es & Ee & Eo & Esum & Hch1).
  assert (Hc : all_funded T c) by (by eapply Forall_lookup_1 in Hch1).
  apply all_funded_unfold in Hc as [(C1 & C2 & C3 & C4) Hcch].
  pose proof (sum_elapsed_nonneg T _ Hcch) as Hcs.
  unfold budget_ok. cbn [current_frame parents]. split_and!.
  - cbn [child set_overhead set_start]. eapply Forall_all_funded_mono; [|done]. lia.
  - unfold spending. cbn [start elapsed overhead child set_overhead set_start].
    rewrite wrap64_small by (unfold is_uint64; lia). lia.
  - cbn [chain_ok c_parent c_slot]. fold cur1. split_and!.
    + eapply Forall_all_funded_mono; [|done]. lia.
    + by exists c.
    + rewrite Hpar. destruct (parents st) as [|c0 up]; [done|].
      unfold spending in Hsp. unfold lending.
      cbn [start set_overhead set_start]. rewrite Es, Ee, Eo, Esum. lia.
    + rewrite Hpar. apply (chain_ok_mono T); [lia|].
      by apply (chain_ok_below T (parents st) cur).
Qed.

Lemma hook_leave_budget (T : Z) (n : Notification) (st st' : Profiler) :
  (0 <= T)%Z ->
  (T <= tsc0 n /\ tsc0 n <= tsc1 n /\ tsc1 n < 2 ^ 64)%Z ->
  budget_ok T st ->
  hook_leave n st = Done st' ->
  budget_ok (tsc1 n) st'.
Proof.
  intros H0 (Ht0 & Ht1 & Ht2) (Hch & Hsp & Hchain). unfold hook_leave.
  destruct (parents st) as [|c up] eqn:Hpar; [done|].
  intros [= <-]. set (cur := current_frame st) in *.
  destruct Hsp as (A1 & A2 & A3 & A4 & A5 & A6).
  destruct Hchain as (Hsib & (copy & Hcopy & Ecopy) & Hlend & Hup).
  pose proof (sum_elapsed_nonneg T _ Hch) as Hsum.
  set (cur' := set_elapsed _ cur).
  assert (He : elapsed cur' = (elapsed cur + (tsc0 n - start cur))%Z).
  { unfold cur'. cbn [elapsed set_elapsed].
    rewrite (wrap64_small (tsc0 n - start cur)) by (unfold is_uint64; lia).
    apply wrap64_small. unfold is_uint64. lia. }
  assert (Hcur' : all_funded (tsc1 n) cur').
  { apply all_funded_unfold. split.
    - unfold funded. rewrite He. unfold cur'. cbn [overhead child set_elapsed]. lia.
    - unfold cur'. cbn [child set_elapsed].
      eapply Forall_all_funded_mono; [|done]. lia. }
  unfold budget_ok. cbn [current_frame parents]. split_and!.
  - unfold plug. cbn [child set_overhead set_child].
    apply Forall_insert; [|done]. eapply Forall_all_funded_mono; [|done]. lia.
  - destruct up as [|c2 up]; [done|].
    destruct Hlend as ((B1 & B2 & B3 & B4 & B5 & B6) & B7).
    pose proof (sum_elapsed_nonneg T _ Hsib) as Hsibsum.
    unfold spending, plug.
    cbn [start elapsed overhead child set_overhead set_child].
    rewrite (sum_elapsed_insert _ _ copy) by done. rewrite Ecopy, He.
    rewrite (wrap64_small (tsc1 n - tsc0 n)) by (unfold is_uint64; lia).
    rewrite wrap64_small by (unfold is_uint64; lia). lia.
  - apply (chain_ok_mono T); [lia|].
    by apply (chain_ok_below T up (c_parent c)).
Qed.

Lemma run_budget (ns : list Notification) :
  forall T st st',
    (0 <= T < 2 ^ 64)%Z ->
    time_ordered T ns ->
    budget_ok T st ->
    run ns st = Done st' ->
    exists T', (T' < 2 ^ 64)%Z /\ budget_ok T' st'.
Proof.
  induction ns as [|n ns IH]; intros T st st' H0 Hord Hinv Hrun.
  - injection Hrun as <-. exists T. split; [lia | done].
  - destruct Hord as [Hn Hord]. cbn [run] in Hrun.
    destruct (callhook n st) as [st1|] eqn:Hc; [|done]. cbn [bind] in Hrun.
    assert (budget_ok (tsc1 n) st1).
    { unfold callhook in Hc. destruct (lua_Debug.event (ar n)).
      - eapply hook_enter_budget; [|done..]. lia.
      - eapply hook_leave_budget; [|done..]. lia.
      - injection Hc as <-. destruct Hinv as (I1 & I2 & I3). split_and!.
        + eapply Forall_all_funded_mono; [|done]. lia.
        + destruct (parents st); [done|]. unfold spending in *. lia.
        + eapply chain_ok_mono; [|done]. lia.
      - injection Hc as <-. destruct Hinv as (I1 & I2 & I3). split_and!.
        + eapply Forall_all_funded_mono; [|done]. lia.
        + destruct (parents st); [done|]. unfold spending in *. lia.
        + eapply chain_ok_mono; [|done]. lia.
      - eapply hook_leave_budget; [|done..]. lia. }
    eapply (IH (tsc1 n)); [lia|done..].
Qed.

(** After a run that is ordered in time and has returned to the root,
    in every frame below the root the elapsed times of the children and
    the overhead of the frame fit together in its elapsed time, and no
    time is negative or reaches 2^64. *)
Theorem children_fit (ns : list Notification) (st : Profiler) :
  time_ordered 0 ns ->
  run ns profiler_init = Done st ->
  parents st = [] ->
  Forall (fun f => (0 <= overhead f /\
                    sum_elapsed (child f) + overhead f <= elapsed f /\
                    0 <= elapsed f < 2 ^ 64)%Z)
         (flat_map subframes (child (root_frame st))).
Proof.
  intros Hord Hrun Hpar.
  destruct (run_budget ns 0 profiler_init st) as (T & HT & Hinv);
    [lia | done | by split_and!; [constructor|..] | done |].
  unfold root_frame. rewrite Hpar. cbn [zip]. destruct Hinv as [Hch _].
  apply Forall_flat_map. eapply Forall_impl; [done|].
  intros f Hf. eapply Forall_impl; [exact Hf|].
  intros x (X1 & X2 & X3 & X4). lia.
Qed.

Lemma children_fit_witness :
  exists st,
    run two_calls profiler_init = Done st /\
    Forall (fun f => (0 <= overhead f /\
                      sum_elapsed (child f) + overhead f <= elapsed f /\
                      0 <= elapsed f < 2 ^ 64)%Z)
           (flat_map subframes (child (root_frame st))).
Proof.
  eexists. split; [vm_compute; reflexivity|].
  apply (children_fit two_calls); [simpl; lia | vm_compute; reflexivity | reflexivity].
Defined.

(** ** The times that are reported *)

Lemma subframes_pass_local {A} (pass : StackFrame -> StackFrame)
    (g g' : StackFrame -> A) :
  (forall x, child (pass x) = map pass (child x)) ->
  forall f, Forall (fun x => g (pass x) = g' x) (subframes f) ->
            map g (subframes (pass f)) = map g' (subframes f).
Proof.
  intros Hch. induction f as [s e ch c ct o IH] using StackFrame_ind.
  intros Hall. apply Forall_subframes in Hall as [Hx Hall].
  rewrite (subframes_unfold (pass _)), (subframes_unfold (mkStackFrame _ _ _ _ _ _)).
  rewrite Hch. cbn [child map] in *. rewrite Hx. f_equal. clear Hx.
  revert Hall. induction IH as [|x rest Hx' _ IHrest]; intros Hall; [done|].
  apply Forall_cons in Hall as [H1 H2].
  cbn [map flat_map]. by rewrite !map_app, (Hx' H1), (IHrest H2).
Qed.

Lemma Forall_subframes_children (Q : StackFrame -> Prop) (f : StackFrame) :
  Forall Q (subframes f) ->
  Forall (fun x => Q x /\ Forall Q (child x)) (subframes f).
Proof.
  induction f as [s e ch c ct o IH] using StackFrame_ind.
  intros [Hx Hall]%Forall_subframes. apply Forall_subframes.
  cbn [child] in *. split.
  - split; [done|]. eapply Forall_impl; [exact Hall|].
    intros y [Hy _]%Forall_subframes. done.
  - clear Hx. revert Hall.
    induction IH as [|x rest Hx' _ IHrest]; intros Hall; [constructor|].
    apply Forall_cons in Hall as [H1 H2].
    apply Forall_cons. split; [by apply Hx' | by apply IHrest].
Qed.

Lemma elapsed_le_sum (l : list StackFrame) (x : StackFrame) :
  Forall (fun c => 0 <= elapsed c)%Z l -> x ∈ l -> (elapsed x <= sum_elapsed l)%Z.
Proof.
  induction 1 as [|y l Hy Hl IH]; intros Hin; [by apply elem_of_nil in Hin|].
  assert (0 <= sum_elapsed l)%Z.
  { clear -Hl. induction Hl; simpl; lia. }
  apply elem_of_cons in Hin as [->|Hin]; simpl; [lia|]. specialize (IH Hin). lia.
Qed.

Lemma last_map_frames (g : StackFrame -> StackFrame) (l : list StackFrame) :
  last (map g l) = g <$> last l.
Proof.
  induction l as [|x l IH]; [done|]. destruct l as [|y l]; [done|].
  exact IH.
Qed.

Lemma reduce_overhead_node (x : StackFrame) :
  elapsed (reduce_overhead x) = wrap64 (elapsed x - overhead x).
Proof. by destruct x. Qed.

Lemma reported_frame (x : StackFrame) :
  (0 <= overhead x /\ sum_elapsed (child x) + overhead x <= elapsed x /\
   0 <= elapsed x < 2 ^ 64)%Z ->
  Forall (fun c => 0 <= overhead c /\
                   sum_elapsed (child c) + overhead c <= elapsed c /\
                   0 <= elapsed c < 2 ^ 64)%Z (child x) ->
  Forall (fun c => 0 <= sum_elapsed (child c))%Z (child x) ->
  elapsed (calculate_child_time (reduce_overhead x)) = reported x /\
  (0 <= reported x)%Z.
Proof.
  intros (X1 & X2 & X3) Hch Hsums.
  rewrite calculate_child_time_unfold, reduce_overhead_child. cbn [elapsed].
  rewrite last_map_frames. unfold reported.
  assert (Hsum : (0 <= sum_elapsed (child x))%Z).
  { clear -Hch. induction Hch as [|? ? (? & ? & ?)]; simpl; lia. }
  assert (Ex : elapsed (reduce_overhead x) = (elapsed x - overhead x)%Z).
  { rewrite reduce_overhead_node. apply wrap64_small. unfold is_uint64. lia. }
  rewrite Ex. destruct (last (child x)) as [l|] eqn:Hl; cbn [fmap option_fmap option_map].
  - assert (Hin : l ∈ child x).
    { apply last_Some in Hl as (l' & ->). apply elem_of_app. right.
      by apply list_elem_of_singleton. }
    pose proof (proj1 (Forall_forall _ _) Hch l Hin) as (L1 & L2 & L3).
    pose proof (proj1 (Forall_forall _ _) Hsums l Hin) as L4. cbv beta in L4.
    assert (Hle : (elapsed l <= sum_elapsed (child x))%Z).
    { apply elapsed_le_sum; [|done]. eapply Forall_impl; [exact Hch|].
      intros c (? & ? & ?). simpl. lia. }
    rewrite (calculate_child_time_unfold (reduce_overhead l)).
    cbn [elapsed children_time].
    assert (El : elapsed (reduce_overhead l) = (elapsed l - overhead l)%Z).
    { rewrite reduce_overhead_node. apply wrap64_small. unfold is_uint64. lia. }
    rewrite El.
    set (t := match last (child (reduce_overhead l)) with
              | Some it => _ | None => 0%Z end).
    assert (Et : wrap64 (wrap64 (elapsed l - overhead l - t) + t)
                 = (elapsed l - overhead l)%Z).
    { unfold wrap64. rewrite Zplus_mod_idemp_l.
      replace (elapsed l - overhead l - t + t)%Z with (elapsed l - overhead l)%Z
        by lia.
      apply Z.mod_small. lia. }
    rewrite Et. split; [|lia]. apply wrap64_small. unfold is_uint64. lia.
  - split; [|lia]. rewrite Z.sub_0_r. apply wrap64_small. unfold is_uint64. lia.
Qed.

Lemma all_funded_sums (T : Z) (f : StackFrame) :
  all_funded T f ->
  Forall (fun x => funded T x /\ (0 <= sum_elapsed (child x))%Z) (subframes f).
Proof.
  induction f as [s e ch c ct o IH] using StackFrame_ind.
  intros Hf. pose proof Hf as [Hx Hch]%all_funded_unfold.
  apply Forall_subframes. cbn [child] in *. split.
  - split; [done | by eapply sum_elapsed_nonneg].
  - clear Hf Hx. revert Hch.
    induction IH as [|x rest Hx' _ IHrest]; intros Hch; [constructor|].
    apply Forall_cons in Hch as [H1 H2].
    apply Forall_cons. split; [by apply Hx' | by apply IHrest].
Qed.

Lemma reported_subtree (T : Z) (f : StackFrame) :
  (T < 2 ^ 64)%Z ->
  all_funded T f ->
  map elapsed (subframes (calculate_child_time (reduce_overhead f)))
  = map reported (subframes f) /\
  Forall (fun x => 0 <= reported x < 2 ^ 64)%Z (subframes f).
Proof.
  intros HT Hf.
  apply all_funded_sums, Forall_subframes_children in Hf.
  assert (Hall : Forall (fun x =>
            elapsed (calculate_child_time (reduce_overhead x)) = reported x /\
            (0 <= reported x < 2 ^ 64)%Z) (subframes f)).
  { eapply Forall_impl; [exact Hf|].
    intros x [[(X1 & X2 & X3 & X4) X5] Hch].
    destruct (reported_frame x) as [E R].
    - lia.
    - eapply Forall_impl; [exact Hch|]. intros c [(? & ? & ? & ?) _]. lia.
    - eapply Forall_impl; [exact Hch|]. by intros c [_ ?].
    - split; [done|]. split; [done|].
      unfold reported. destruct (last (child x)) as [l|] eqn:Hl; [|lia].
      apply last_Some in Hl as (l' & Hl).
      rewrite Hl, Forall_app, Forall_singleton in Hch.
      destruct Hch as [_ [(? & ? & ? & ?) ?]]. lia. }
  split.
  - apply (subframes_pass_local (fun x => calculate_child_time (reduce_overhead x))).
    + intros x. by rewrite calculate_child_time_child, reduce_overhead_child, map_map.
    + eapply Forall_impl; [exact Hall|]. by intros x [? _].
  - eapply Forall_impl; [exact Hall|]. by intros x [_ ?].
Qed.

(** After a run that is ordered in time and has returned to the root,
    the two passes leave in every frame below the root exactly its
    elapsed time less its overhead, less what the last child of its
    chain has of the same: no subtraction wraps, and the value is not
    negative. *)
Theorem reported_times (ns : list Notification) (st : Profiler) :
  time_ordered 0 ns ->
  run ns profiler_init = Done st ->
  parents st = [] ->
  map elapsed
      (flat_map subframes
         (child (calculate_child_time (reduce_overhead (root_frame st)))))
  = map reported (flat_map subframes (child (root_frame st))) /\
  Forall (fun x => 0 <= reported x < 2 ^ 64)%Z
         (flat_map subframes (child (root_frame st))).
Proof.
  intros Hord Hrun Hpar.
  destruct (run_budget ns 0 profiler_init st) as (T & HT & Hinv);
    [lia | done | by split_and!; [constructor|..] | done |].
  unfold root_frame. rewrite Hpar. cbn [zip]. destruct Hinv as [Hch _].
  rewrite calculate_child_time_child, reduce_overhead_child, map_map.
  induction Hch as [|k rest Hk _ IH]; [split; [done | constructor]|].
  destruct (reported_subtree T k HT Hk) as [E1 R1]. destruct IH as [E2 R2].
  cbn [map flat_map]. split.
  - by rewrite !map_app, E1, E2.
  - by apply Forall_app.
Qed.

Lemma reported_times_witness :
  exists st,
    run anonymous_twice profiler_init = Done st /\
    Forall (fun x => 0 <= reported x < 2 ^ 64)%Z
           (flat_map subframes (child (root_frame st))).
Proof.
  eexists. split; [vm_compute; reflexivity|].
  eapply proj2, (reported_times anonymous_twice);
    [simpl; lia | vm_compute; reflexivity | reflexivity].
Defined.
